(** * OpenCodeRouter: registry, router and advertiser

    A shallow embedding of the Go packages [internal/registry],
    [internal/proxy] and [internal/discovery], and the properties of the
    discovery / registry / routing triangle proved about it.

    Conventions of the embedding.
    - A Go [string] is a sequence of bytes: the registry keys are Rocq
      [string]s (whose characters are the 256 bytes), and the byte-level
      library functions work on [list ascii].
    - A Go [int] is a [Z]; ports are never used in arithmetic, so no
      wrap-around arises.
    - [map[K]V] is a [gmap K V].  The registry stores [*Backend] pointers that
      never escape (every reader copies), so the map holds the records.
    - [time.Time] and [time.Duration] are [Z] (nanoseconds); an operation that
      reads the clock takes the reading [now] as an argument.
    - The mutexes and the loggers are not part of the state.  The mDNS
      library is a scripted network (module [discovery]); what the reverse
      proxy sends upstream is recorded, not performed (module [proxy]). *)

From Stdlib Require Import Ascii String DecimalString.
From stdpp Require Import gmap strings list fin_maps.

Open Scope Z_scope.

(** ** The Go standard library functions the code calls *)

(** [strings.ToLower] lowers a string that has a byte outside ASCII with
    [strings.Map(unicode.ToLower, s)].  The Unicode case tables are not part
    of the repository: that path is a parameter of the development. *)
Class UnicodeTables := MapUnicodeToLower : list ascii → list ascii.

Module GoStrings.

Definition code (c : ascii) : N := N_of_ascii c.

Definition in_range (lo hi : N) (c : ascii) : bool :=
  ((lo <=? code c) && (code c <=? hi))%N.

(** [c < utf8.RuneSelf] *)
Definition is_ascii (c : ascii) : bool := (code c <? 128)%N.
(** ['A' <= c && c <= 'Z'] *)
Definition is_upper (c : ascii) : bool := in_range 65 90 c.
Definition is_lower (c : ascii) : bool := in_range 97 122 c.
Definition is_digit (c : ascii) : bool := in_range 48 57 c.
Definition is_hyphen (c : ascii) : bool := Ascii.eqb c "-".
(** [os.IsPathSeparator] on Unix *)
Definition is_separator (c : ascii) : bool := Ascii.eqb c "/".

(** The character class [[a-z0-9-]]. *)
Definition is_slug_char (c : ascii) : bool :=
  is_lower c || is_digit c || is_hyphen c.

(** [c += 'a' - 'A'] for an upper-case letter. *)
Definition lower_byte (c : ascii) : ascii :=
  if is_upper c then ascii_of_N (code c + 32) else c.

Fixpoint drop_while (p : ascii → bool) (s : list ascii) : list ascii :=
  match s with
  | [] => []
  | c :: rest => if p c then drop_while p rest else s
  end.

Fixpoint take_while (p : ascii → bool) (s : list ascii) : list ascii :=
  match s with
  | [] => []
  | c :: rest => if p c then c :: take_while p rest else []
  end.

(** [filepath.Base] (Unix: no volume name).  The empty path gives ["."];
    trailing separators are stripped; what follows the last separator is
    kept; a path of separators only gives ["/"]. *)
Definition Base (path : list ascii) : list ascii :=
  match path with
  | [] => ["."%char]
  | _ =>
      let stripped := drop_while is_separator (rev path) in
      match rev (take_while (λ c, negb (is_separator c)) stripped) with
      | [] => ["/"%char]
      | elem => elem
      end
  end.

Section with_tables.
Context `{UnicodeTables}.

(** [strings.ToLower]: the ASCII-only fast path works byte by byte (and
    returns the string itself when it has no upper-case letter); any
    other string goes through the Unicode tables. *)
Definition ToLower (s : list ascii) : list ascii :=
  if forallb is_ascii s then
    if existsb is_upper s then map lower_byte s else s
  else MapUnicodeToLower s.
End with_tables.

(** [utf8.DecodeRuneInString], the width only.  The table [first] gives,
    for a leading byte, the length of the encoding and the range accepted
    for the second byte; an ASCII byte and an invalid leading byte have
    width 1, and so has every truncated or ill-formed encoding. *)
Definition first (s0 : ascii) : option (nat * (N * N)) :=
  if in_range 194 223 s0 then Some (2%nat, (128, 191)%N)
  else if in_range 224 224 s0 then Some (3%nat, (160, 191)%N)
  else if in_range 225 236 s0 then Some (3%nat, (128, 191)%N)
  else if in_range 237 237 s0 then Some (3%nat, (128, 159)%N)
  else if in_range 238 239 s0 then Some (3%nat, (128, 191)%N)
  else if in_range 240 240 s0 then Some (4%nat, (144, 191)%N)
  else if in_range 241 243 s0 then Some (4%nat, (128, 191)%N)
  else if in_range 244 244 s0 then Some (4%nat, (128, 143)%N)
  else None.

(** A continuation byte: [locb <= c && c <= hicb]. *)
Definition is_cont (c : ascii) : bool := in_range 128 191 c.

Definition utf8_width (s : list ascii) : nat :=
  match s with
  | [] => 0%nat
  | s0 :: rest =>
      match first s0 with
      | None => 1%nat
      | Some (sz, (lo, hi)) =>
          if (length s <? sz)%nat then 1%nat
          else match rest with
          | s1 :: rest1 =>
              if negb (in_range lo hi s1) then 1%nat
              else if (sz <=? 2)%nat then 2%nat
              else match rest1 with
              | s2 :: rest2 =>
                  if negb (is_cont s2) then 1%nat
                  else if (sz <=? 3)%nat then 3%nat
                  else match rest2 with
                  | s3 :: _ => if negb (is_cont s3) then 1%nat else 4%nat
                  | [] => 1%nat
                  end
              | [] => 1%nat
              end
          | [] => 1%nat
          end
      end
  end.

(** [regexp.MustCompile(`[^a-z0-9-]`).ReplaceAllString(s, "-")]: the
    matcher walks the string rune by rune; a rune outside the class (the
    error rune of an invalid byte included) is a match and its whole
    encoding is replaced by one hyphen.  [skip] counts the bytes of the
    current match that are still to be passed over. *)
Fixpoint replace_from (skip : nat) (s : list ascii) : list ascii :=
  match s with
  | [] => []
  | c :: rest =>
      match skip with
      | S k => replace_from k rest
      | O =>
          if is_slug_char c then c :: replace_from 0 rest
          else "-"%char :: replace_from (pred (utf8_width s)) rest
      end
  end.

Definition nonAlphaNum_ReplaceAll (s : list ascii) : list ascii :=
  replace_from 0 s.

(** [regexp.MustCompile(`-+`).ReplaceAllString(s, "-")]: every maximal run
    of hyphens is one match and becomes one hyphen.  [in_run] tells that
    the hyphen of the current run has been written. *)
Fixpoint collapse_from (in_run : bool) (s : list ascii) : list ascii :=
  match s with
  | [] => []
  | c :: rest =>
      if is_hyphen c then
        if in_run then collapse_from true rest
        else "-"%char :: collapse_from true rest
      else c :: collapse_from false rest
  end.

Definition multiHyphen_ReplaceAll (s : list ascii) : list ascii :=
  collapse_from false s.

(** [strings.Trim(s, "-")] *)
Definition Trim_hyphen (s : list ascii) : list ascii :=
  rev (drop_while is_hyphen (rev (drop_while is_hyphen s))).

(** [strings.HasPrefix], [strings.HasSuffix], [strings.TrimPrefix] and
    [strings.TrimSuffix] *)
Fixpoint HasPrefix (s prefix : list ascii) {struct prefix} : bool :=
  match prefix, s with
  | [], _ => true
  | p :: prefix', c :: s' => Ascii.eqb p c && HasPrefix s' prefix'
  | _ :: _, [] => false
  end.

Definition HasSuffix (s suffix : list ascii) : bool :=
  HasPrefix (rev s) (rev suffix).

Definition TrimPrefix (s prefix : list ascii) : list ascii :=
  if HasPrefix s prefix then drop (length prefix) s else s.

Definition TrimSuffix (s suffix : list ascii) : list ascii :=
  if HasSuffix s suffix then take (length s - length suffix) s else s.

(** [s[:strings.LastIndex(s, sep)]], or [None] when [sep] does not occur. *)
Definition before_last (sep : ascii) (s : list ascii)
    : option (list ascii) :=
  match drop_while (λ c, negb (Ascii.eqb c sep)) (rev s) with
  | [] => None
  | _ :: front => Some (rev front)
  end.

(** [strings.SplitN(s, sep, 2)] for a one-byte separator: the part before
    the first [sep] and, when [sep] occurs, the part after it. *)
Definition SplitN2 (sep : ascii) (s : list ascii)
    : list ascii * option (list ascii) :=
  (take_while (λ c, negb (Ascii.eqb c sep)) s,
   match drop_while (λ c, negb (Ascii.eqb c sep)) s with
   | [] => None
   | _ :: after => Some after
   end).

(** [fmt.Sprintf("%d", n)] *)
Definition FormatInt (n : Z) : string := NilZero.string_of_int (Z.to_int n).

End GoStrings.

(** ** Package [registry] *)

Module registry.
Import GoStrings.

(** [type Backend struct] *)
Record Backend := mkBackend {
  Port : Z;
  ProjectName : string;
  ProjectPath : string;
  Slug : string;
  Version : string;
  LastSeen : Z
}.

(** [type Registry struct]: [backends] is the index slug → backend and
    [byPort] the index port → slug. *)
Record Registry := mkRegistry {
  backends : gmap string Backend;
  byPort : gmap Z string;
  staleAfter : Z
}.

#[global] Instance Backend_eq_dec : EqDecision Backend.
Proof. solve_decision. Defined.

Definition New (staleAfter : Z) : Registry :=
  {| backends := ∅; byPort := ∅; staleAfter := staleAfter |}.

(** What a method that dereferences a pointer does: it returns, or the
    pointer is nil and the goroutine panics. *)
Inductive outcome (A : Type) : Type :=
| Returns (a : A)
| NilDereference.
Arguments Returns {A} a.
Arguments NilDereference {A}.

Section with_tables.
Context `{UnicodeTables}.

(** [Slugify], on the bytes of the path and on the string. *)
Definition Slugify_bytes (projectPath : list ascii) : list ascii :=
  let base := Base projectPath in
  let slug := ToLower base in
  let slug := nonAlphaNum_ReplaceAll slug in
  let slug := multiHyphen_ReplaceAll slug in
  let slug := Trim_hyphen slug in
  match slug with
  | [] => String.list_ascii_of_string "default"
  | _ => slug
  end.

Definition Slugify (projectPath : string) : string :=
  String.string_of_list_ascii
    (Slugify_bytes (String.list_ascii_of_string projectPath)).

(** [Upsert]; [now] is the reading of [time.Now()]. *)
Definition Upsert (now : Z) (port : Z)
    (projectName projectPath version : string) (r : Registry)
    : Registry * bool :=
  let slug := Slugify projectPath in
  (* the port was registered under another slug *)
  let backends1 :=
    match byPort r !! port with
    | Some oldSlug =>
        if bool_decide (oldSlug ≠ slug) then delete oldSlug (backends r)
        else backends r
    | None => backends r
    end in
  let register (slug : string) :=
    ({| backends :=
          <[slug := {| Port := port; ProjectName := projectName;
                       ProjectPath := projectPath; Slug := slug;
                       Version := version; LastSeen := now |}]> backends1;
        byPort := <[port := slug]> (byPort r);
        staleAfter := staleAfter r |}, true) in
  match backends1 !! slug with
  | Some existing =>
      if bool_decide (ProjectPath existing = projectPath)
         || bool_decide (Port existing = port) then
        (* same project or same port: update in place *)
        let byPort1 :=
          if bool_decide (Port existing ≠ port)
          then delete (Port existing) (byPort r) else byPort r in
        ({| backends :=
              <[slug := {| Port := port; ProjectName := projectName;
                           ProjectPath := projectPath;
                           Slug := Slug existing;
                           Version := version; LastSeen := now |}]>
                backends1;
            byPort := <[port := slug]> byPort1;
            staleAfter := staleAfter r |}, false)
      else
        (* slug collision: disambiguate with the port number *)
        register (slug +:+ "-" +:+ FormatInt port)
  | None => register slug
  end.
End with_tables.

(** [time.Since(b.LastSeen) > r.staleAfter] *)
Definition stale (now staleAfter : Z) (b : Backend) : bool :=
  bool_decide (staleAfter < now - LastSeen b).

(** One iteration of the loop of [Prune].  The state is the two indices and
    the slice [removed]. *)
Definition Prune_step (now : Z) (r : Registry * list string)
    (entry : string * Backend) : Registry * list string :=
  let '(slug, b) := entry in
  if stale now (staleAfter r.1) b then
    ({| backends := delete slug (backends r.1);
        byPort := delete (Port b) (byPort r.1);
        staleAfter := staleAfter r.1 |}, r.2 ++ [slug])
  else r.

(** [Prune] ranges over [r.backends] and deletes only the entry it is at,
    so the loop visits exactly the entries present at the start, in the
    order the map yields them (here the order of [map_to_list]); [now] is
    the clock reading of the call. *)
Definition Prune (now : Z) (r : Registry) : Registry * list string :=
  foldl (Prune_step now) (r, []) (map_to_list (backends r)).

(** [Lookup] returns a copy of the record. *)
Definition Lookup (r : Registry) (slug : string) : option Backend :=
  backends r !! slug.

(** [LookupByPort]: [b := r.backends[slug]; copy := *b] dereferences the
    map's zero value, a nil pointer, when the slug has no entry. *)
Definition LookupByPort (r : Registry) (port : Z)
    : outcome (option Backend) :=
  match byPort r !! port with
  | None => Returns None
  | Some slug =>
      match backends r !! slug with
      | Some b => Returns (Some b)
      | None => NilDereference
      end
  end.

Section with_tables.
Context `{UnicodeTables}.

(** [LookupByPath]: the first backend, in the order of the range, with
    the given project path; else the backend under the path's slug. *)
Definition LookupByPath (r : Registry) (projectPath : string)
    : option Backend :=
  match list_find (λ e : string * Backend,
                     ProjectPath e.2 = projectPath)
                  (map_to_list (backends r)) with
  | Some (_, (_, b)) => Some b
  | None => backends r !! Slugify projectPath
  end.
End with_tables.

Definition All (r : Registry) : list Backend :=
  (map_to_list (backends r)).*2.

Definition Slugs (r : Registry) : list string :=
  (map_to_list (backends r)).*1.

Definition Len (r : Registry) : nat := size (backends r).

(** [Healthy]: [time.Since(b.LastSeen) < staleAfter] *)
Definition Healthy (now : Z) (b : Backend) (staleAfter : Z) : bool :=
  bool_decide (now - LastSeen b < staleAfter).

End registry.

(** ** Package [config]: the fields the router and the advertiser read *)

Module config.
Record Config := mkConfig {
  ListenPort : Z;
  Username : string;
  MDNSServiceType : string
}.

(** [DomainFor]: [fmt.Sprintf("%s-%s.local", slug, c.Username)] *)
Definition DomainFor (c : Config) (slug : string) : string :=
  slug +:+ "-" +:+ Username c +:+ ".local".

(** The other fields of [type Config struct]; durations in nanoseconds. *)
Record ScanSettings := mkScanSettings {
  ListenAddr : string;
  ScanPortStart : Z;
  ScanPortEnd : Z;
  ScanInterval : Z;
  ScanConcurrency : Z;
  ProbeTimeout : Z;
  StaleAfter : Z;
  EnableMDNS : bool
}.

(** [time.Millisecond] and [time.Second] *)
Definition Millisecond : Z := 1000000.
Definition Second : Z := 1000 * Millisecond.

(** The errors of [Validate], with the values their messages print. *)
Inductive ConfigError :=
| ListenPortOutOfRange (got : Z)
| ScanStartOutOfRange (got : Z)
| ScanRangeInverted (scanEnd scanStart : Z)
| ScanEndOutOfRange (got : Z)
| UsernameEmpty
| ScanIntervalTooShort (got : Z).

(** [Validate]; [None] is the nil error. *)
Definition Validate (c : Config) (s : ScanSettings) : option ConfigError :=
  if bool_decide (ListenPort c < 1) || bool_decide (ListenPort c > 65535)
  then Some (ListenPortOutOfRange (ListenPort c))
  else if bool_decide (ScanPortStart s < 1)
          || bool_decide (ScanPortStart s > 65535)
  then Some (ScanStartOutOfRange (ScanPortStart s))
  else if bool_decide (ScanPortEnd s < ScanPortStart s)
  then Some (ScanRangeInverted (ScanPortEnd s) (ScanPortStart s))
  else if bool_decide (ScanPortEnd s > 65535)
  then Some (ScanEndOutOfRange (ScanPortEnd s))
  else if bool_decide (Username c = EmptyString)
  then Some UsernameEmpty
  else if bool_decide (ScanInterval s < 1 * Second)
  then Some (ScanIntervalTooShort (ScanInterval s))
  else None.

(** [Defaults]; [username] is the name [user.Current()] gives, or
    ["unknown"] when it fails. *)
Definition Defaults (username : string) : Config * ScanSettings :=
  ({| ListenPort := 8080; Username := username;
      MDNSServiceType := "_opencode._tcp" |},
   {| ListenAddr := "0.0.0.0:8080";
      ScanPortStart := 30000; ScanPortEnd := 31000;
      ScanInterval := 5 * Second; ScanConcurrency := 20;
      ProbeTimeout := 800 * Millisecond; StaleAfter := 30 * Second;
      EnableMDNS := true |}).
End config.

(** ** Package [proxy] *)

Module proxy.
Import GoStrings registry config.

Abbreviation bytes := String.list_ascii_of_string.
Abbreviation str := String.string_of_list_ascii.

Record Router := mkRouter {
  reg : Registry;      (* the field [registry] *)
  cfg : Config
}.

(** The parts of [*http.Request] the router reads: [r.Method], [r.Host],
    [r.URL.Path] and the parsed query [r.URL.Query()], a
    [map[string][]string]. *)
Record Request := mkRequest {
  Method : string;
  Host : string;
  Path : string;
  Query : gmap string (list string)
}.

(** [url.Values.Get]: the first value of the key, or the empty string. *)
Definition Get (q : gmap string (list string)) (key : string) : string :=
  match q !! key with
  | Some (v :: _) => v
  | _ => EmptyString
  end.

(** The JSON documents the handlers write are objects of scalar fields,
    or an array of them. *)
Inductive JSON :=
| JString (s : string)
| JNumber (n : Z)
| JBool (b : bool)
| JTime (t : Z).

Inductive body :=
| Text (s : string)
| JObject (fields : list (string * JSON))
| JArray (items : list (list (string * JSON)))
| DashboardPage (username : string) (entries : list Backend).

Record Response := mkResponse {
  StatusCode : Z;
  ContentType : string;
  Body : body
}.

(** What a handler does with a request: it hands it to the reverse proxy,
    which sends it to [target] with URL path [outPath], or it writes a
    response itself. *)
Inductive Reply :=
| Forward (target : string) (outPath : string)
| Respond (resp : Response).

(** [http.Error] *)
Definition http_Error (msg : string) (code : Z) : Response :=
  {| StatusCode := code;
     ContentType := "text/plain; charset=utf-8";
     Body := Text (msg +:+ String "010"%char EmptyString) |}.

(** [slugFromHost] *)
Definition slugFromHost (rt : Router) (host : string) : string :=
  let hostname :=
    match before_last ":" (bytes host) with
    | Some front => front
    | None => bytes host
    end in
  if negb (HasSuffix hostname (bytes ".local")) then EmptyString
  else
    let hostname := TrimSuffix hostname (bytes ".local") in
    let suffix := bytes ("-" +:+ Username (cfg rt)) in
    if negb (HasSuffix hostname suffix) then EmptyString
    else str (TrimSuffix hostname suffix).

(** [slugFromPath] *)
Definition slugFromPath (path : string) : string * string :=
  let trimmed := TrimPrefix (bytes path) (bytes "/") in
  match trimmed with
  | [] => (EmptyString, EmptyString)
  | _ =>
      match SplitN2 "/" trimmed with
      | (slug, Some rest) => (str slug, str ("/"%char :: rest))
      | (slug, None) => (str slug, "/")
      end
  end.

(** [proxyTo].  [url.Parse] accepts the target ["http://127.0.0.1:<port>"]
    exactly when the port is written with digits only, that is when it is
    not negative.  [SetURL] joins the target's empty path with the inbound
    path, which puts a slash in front of a path that has none; the path
    override then replaces it. *)
Definition proxyTo (backend : Backend) (r : Request)
    (pathOverride : string) : Reply :=
  if bool_decide (Port backend < 0) then
    Respond (http_Error "internal error" 500)
  else
    let joined :=
      if HasPrefix (bytes (Path r)) (bytes "/") then Path r
      else "/" +:+ Path r in
    Forward ("127.0.0.1:" +:+ FormatInt (Port backend))
            (if bool_decide (pathOverride ≠ EmptyString) then pathOverride
             else joined).

Definition backendInfo (rt : Router) (b : Backend)
    : list (string * JSON) :=
  [ ("slug", JString (Slug b));
    ("project_name", JString (ProjectName b));
    ("project_path", JString (ProjectPath b));
    ("port", JNumber (Port b));
    ("version", JString (Version b));
    ("domain", JString (DomainFor (cfg rt) (Slug b)));
    ("path_prefix", JString ("/" +:+ Slug b +:+ "/"));
    ("url", JString ("http://localhost:" +:+ FormatInt (ListenPort (cfg rt))
                       +:+ "/" +:+ Slug b +:+ "/"));
    ("last_seen", JTime (LastSeen b)) ].

(** [handleAPIBackends] *)
Definition handleAPIBackends (rt : Router) (r : Request) : Response :=
  if bool_decide (Method r ≠ "GET") then
    http_Error "method not allowed" 405
  else
    {| StatusCode := 200; ContentType := "application/json";
       Body := JArray (backendInfo rt <$> All (reg rt)) |}.

(** [handleAPIHealth] *)
Definition handleAPIHealth (rt : Router) (r : Request) : Response :=
  {| StatusCode := 200; ContentType := "application/json";
     Body := JObject
       [ ("backends", JNumber (Z.of_nat (Len (reg rt))));
         ("healthy", JBool true);
         ("username", JString (Username (cfg rt))) ] |}.

(** [handleDashboard]; the template is outside the model. *)
Definition handleDashboard (rt : Router) (r : Request) : Response :=
  {| StatusCode := 200; ContentType := "text/html; charset=utf-8";
     Body := DashboardPage (Username (cfg rt)) (All (reg rt)) |}.

(** The message [`missing "path" or "name" query parameter`]. *)
Definition quoted (s : string) : string :=
  String "034"%char (s +:+ String "034"%char EmptyString).

Definition missing_parameter : string :=
  "missing " +:+ quoted "path" +:+ " or " +:+ quoted "name"
    +:+ " query parameter".

Section with_tables.
Context `{UnicodeTables}.

(** [handleAPIResolve]; the JSON encoder writes the keys of a map in
    sorted order. *)
Definition handleAPIResolve (rt : Router) (r : Request) : Response :=
  if bool_decide (Method r ≠ "GET") then
    http_Error "method not allowed" 405
  else
    let projectPath := Get (Query r) "path" in
    let projectName := Get (Query r) "name" in
    if bool_decide (projectPath = EmptyString) && bool_decide (projectName = EmptyString)
    then http_Error missing_parameter 400
    else
      let found :=
        if bool_decide (projectPath ≠ EmptyString)
        then LookupByPath (reg rt) projectPath
        else Lookup (reg rt) (Slugify projectName) in
      match found with
      | None =>
          let query :=
            if bool_decide (projectPath = EmptyString) then projectName
            else projectPath in
          {| StatusCode := 404; ContentType := "application/json";
             Body := JObject
               [ ("detail", JString "no backend found for this project");
                 ("error", JString "not_found");
                 ("query", JString query) ] |}
      | Some backend =>
          {| StatusCode := 200; ContentType := "application/json";
             Body := JObject
               [ ("domain", JString (DomainFor (cfg rt) (Slug backend)));
                 ("last_seen", JTime (LastSeen backend));
                 ("path_prefix", JString ("/" +:+ Slug backend +:+ "/"));
                 ("port", JNumber (Port backend));
                 ("project_name", JString (ProjectName backend));
                 ("project_path", JString (ProjectPath backend));
                 ("slug", JString (Slug backend));
                 ("url", JString ("http://localhost:"
                                    +:+ FormatInt (ListenPort (cfg rt))
                                    +:+ "/" +:+ Slug backend +:+ "/"));
                 ("version", JString (Version backend)) ] |}
      end.

(** [ServeHTTP] *)
Definition ServeHTTP (rt : Router) (r : Request) : Reply :=
  let slug := slugFromHost rt (Host r) in
  match (if bool_decide (slug ≠ EmptyString) then Lookup (reg rt) slug
         else None) with
  | Some backend => proxyTo backend r EmptyString
  | None =>
      let '(slug, remainder) := slugFromPath (Path r) in
      match (if bool_decide (slug ≠ EmptyString) then Lookup (reg rt) slug
             else None) with
      | Some backend => proxyTo backend r remainder
      | None =>
          if bool_decide (Path r = "/api/backends") then
            Respond (handleAPIBackends rt r)
          else if bool_decide (Path r = "/api/health") then
            Respond (handleAPIHealth rt r)
          else if bool_decide (Path r = "/api/resolve") then
            Respond (handleAPIResolve rt r)
          else Respond (handleDashboard rt r)
      end
  end.
End with_tables.
End proxy.

(** ** Package [discovery] *)

Module discovery.
Import GoStrings registry config.

(** A [*zeroconf.Server] is known by its identity. *)
Definition Handle := nat.

(** The arguments of [zeroconf.RegisterProxy] that come from the backend
    and the configuration. *)
Record Service := mkService {
  instance : string;
  service : string;
  domain : string;
  port : Z;
  host : string;
  text : list string
}.

(** What the advertiser does to the network. *)
Inductive event :=
| Registered (svc : Service) (srv : Handle)
| RegistrationFailed (svc : Service)
| ShutDown (srv : Handle).

(** The mDNS library as the advertiser sees it: [script] tells whether the
    coming calls of [RegisterProxy] succeed ([true]) or return an error
    (a call beyond the script succeeds), [fresh] is the identity of the
    next server it creates, [trace] what has been done so far. *)
Record Network := mkNetwork {
  fresh : Handle;
  script : list bool;
  trace : list event
}.

Record Advertiser := mkAdvertiser {
  cfg : Config;
  servers : gmap string Handle
}.

Definition New (cfg : Config) : Advertiser :=
  {| cfg := cfg; servers := ∅ |}.

(** [zeroconf.RegisterProxy] *)
Definition RegisterProxy (svc : Service) (net : Network)
    : option Handle * Network :=
  match script net with
  | false :: rest =>
      (None, {| fresh := fresh net; script := rest;
                trace := trace net ++ [RegistrationFailed svc] |})
  | _ =>
      (Some (fresh net),
       {| fresh := S (fresh net); script := tail (script net);
          trace := trace net ++ [Registered svc (fresh net)] |})
  end.

(** [srv.Shutdown()] *)
Definition Server_Shutdown (srv : Handle) (net : Network) : Network :=
  {| fresh := fresh net; script := script net;
     trace := trace net ++ [ShutDown srv] |}.

(** [register]: [true] stands for a nil error. *)
Definition register (b : Backend) (st : Advertiser * Network)
    : Advertiser * Network * bool :=
  let '(a, net) := st in
  let host := DomainFor (cfg a) (Slug b) in
  let txt :=
    [ "project=" +:+ ProjectName b;
      "path=" +:+ ProjectPath b;
      "backend=127.0.0.1:" +:+ FormatInt (Port b);
      "owner=" +:+ Username (cfg a) ] in
  let txt :=
    if bool_decide (Version b ≠ EmptyString)
    then txt ++ ["version=" +:+ Version b] else txt in
  match RegisterProxy
          {| instance := Slug b; service := MDNSServiceType (cfg a);
             domain := "local."; port := ListenPort (cfg a);
             host := host; text := txt |} net with
  | (None, net') => (a, net', false)
  | (Some srv, net') =>
      ({| cfg := cfg a; servers := <[Slug b := srv]> (servers a) |},
       net', true)
  end.

(** The first loop of [Sync], one iteration: an advertised slug that is
    not current is shut down and forgotten. *)
Definition Sync_remove (currentSlugs : gset string)
    (st : Advertiser * Network) (entry : string * Handle)
    : Advertiser * Network :=
  let '(slug, srv) := entry in
  if bool_decide (slug ∉ currentSlugs) then
    ({| cfg := cfg st.1; servers := delete slug (servers st.1) |},
     Server_Shutdown srv st.2)
  else st.

(** The second loop of [Sync], one iteration. *)
Definition Sync_add (st : Advertiser * Network) (b : Backend)
    : Advertiser * Network :=
  match servers st.1 !! Slug b with
  | Some _ => st                     (* already advertised *)
  | None => (register b st).1        (* an error is only logged *)
  end.

(** [Sync].  The first loop ranges over [a.servers] and deletes only the
    entry it is at, so it visits the entries present at the start. *)
Definition Sync (backends : list Backend) (st : Advertiser * Network)
    : Advertiser * Network :=
  let currentSlugs : gset string := list_to_set (Slug <$> backends) in
  let st := foldl (Sync_remove currentSlugs) st
                  (map_to_list (servers st.1)) in
  foldl Sync_add st backends.

(** [Shutdown] *)
Definition Shutdown (st : Advertiser * Network) : Advertiser * Network :=
  ({| cfg := cfg st.1; servers := ∅ |},
   foldl (λ net entry, Server_Shutdown entry.2 net) st.2
         (map_to_list (servers st.1))).
End discovery.

(** ** Package [scanner] *)

Module scanner.
Import GoStrings.

(** [type healthResponse struct] and [type projectResponse struct] *)
Record healthResponse := mkHealth {
  Healthy : bool;
  Version : string
}.

Record projectResponse := mkProject {
  ID : string;
  Name : string;
  Path : string
}.

(** What one HTTP GET of the scanner comes to: the client returns an error,
    or a response arrives with a status and a body that the JSON decoder
    turns into a value or rejects. *)
Inductive exchange (A : Type) : Type :=
| TransportError
| Reply (status : Z) (decoded : option A).
Arguments TransportError {A}.
Arguments Reply {A} status decoded.

(** [getHealth] and [getProject]: an error unless the status is 200 and
    the body decodes. *)
Definition getHealth (x : exchange healthResponse)
    : option healthResponse :=
  match x with
  | Reply status (Some h) => if bool_decide (status = 200) then Some h else None
  | _ => None
  end.

Definition getProject (x : exchange projectResponse)
    : option projectResponse :=
  match x with
  | Reply status (Some p) => if bool_decide (status = 200) then Some p else None
  | _ => None
  end.

(** One probe as the registry sees it: the port, the clock reading of its
    [Upsert], and what the two GETs come to. *)
Record probe := mkProbe {
  probe_port : Z;
  probe_now : Z;
  probe_health : exchange healthResponse;
  probe_project : exchange projectResponse
}.

Section with_tables.
Context `{UnicodeTables}.

(** [probePort] *)
Definition probePort (p : probe) (r : registry.Registry)
    : registry.Registry :=
  match getHealth (probe_health p) with
  | None => r
  | Some health =>
      if negb (Healthy health) then r
      else
        match getProject (probe_project p) with
        | None =>
            (registry.Upsert (probe_now p) (probe_port p)
               ("port-" +:+ FormatInt (probe_port p))
               ("/unknown/port-" +:+ FormatInt (probe_port p))
               (Version health) r).1
        | Some project =>
            let projectPath :=
              if bool_decide (Path project = EmptyString)
              then "/unknown/" +:+ ID project else Path project in
            let projectName :=
              String.string_of_list_ascii
                (Base (String.list_ascii_of_string projectPath)) in
            (registry.Upsert (probe_now p) (probe_port p) projectName
               projectPath (Version health) r).1
        end
  end.

(** [scan], for a pass that is not cancelled.  The probes of a pass run
    concurrently and each takes the lock of the registry for its [Upsert]:
    the pass acts on the registry as the probes one after the other, in the
    order they take the lock, which is the order of [probes]; [Prune]
    follows when all are done, at the clock reading [now]. *)
Definition scan (probes : list probe) (now : Z) (r : registry.Registry)
    : registry.Registry * list string :=
  registry.Prune now (foldl (λ r p, probePort p r) r probes).
End with_tables.
End scanner.

(** ** Package [launcher] *)

Module launcher.

(** What the operating system answers during one call of [Launch]:
    [directory dir] is the absolute path [filepath.Abs] gives when [os.Stat]
    finds a directory there; [portInUse port] tells whether a connection to
    the port on the loopback interface succeeds; [start dir port] tells
    whether [cmd.Start()] of [opencode serve --port port] in [dir] returns
    no error. *)
Record System := mkSystem {
  directory : string → option string;
  portInUse : Z → bool;
  start : string → Z → bool
}.

(** [type managedProcess struct], without the command handle. *)
Record managedProcess := mkProcess {
  path : string;
  port : Z
}.

(** The error of [Launch]: no free ports in the range. *)
Inductive LaunchError :=
| NoFreePorts (portStart portEnd : Z).

(** The loop [for portInUse(nextPort)]: the port it stops at, or [None]
    when it returns the error.  It runs as long as ports are in use and is
    stopped past [portEnd]; [fuel] bounds the iterations, and the outer
    [None] is a loop with too little of it. *)
Fixpoint nextFree (sys : System) (portEnd : Z) (fuel : nat) (nextPort : Z)
    : option (option Z) :=
  if portInUse sys nextPort then
    match fuel with
    | O => None
    | S fuel' =>
        let nextPort := nextPort + 1 in
        if bool_decide (nextPort > portEnd) then Some None
        else nextFree sys portEnd fuel' nextPort
    end
  else Some (Some nextPort).

(** The iterations the loop can take from [nextPort]. *)
Definition loop_bound (portEnd nextPort : Z) : nat :=
  S (Z.to_nat (portEnd - nextPort)).

(** [Launch], from the directory it is at: [nextPort] is the local variable
    and [procs] the slice [l.procs]. *)
Fixpoint Launch_from (sys : System) (portStart portEnd : Z) (nextPort : Z)
    (procs : list managedProcess) (paths : list string)
    : list managedProcess * option LaunchError :=
  match paths with
  | [] => (procs, None)
  | dir :: rest =>
      match directory sys dir with
      | None => Launch_from sys portStart portEnd nextPort procs rest
      | Some abs =>
          match nextFree sys portEnd (loop_bound portEnd nextPort) nextPort with
          | Some (Some nextPort) =>
              if start sys abs nextPort then
                Launch_from sys portStart portEnd (nextPort + 1)
                  (procs ++ [{| path := abs; port := nextPort |}]) rest
              else Launch_from sys portStart portEnd nextPort procs rest
          | _ => (procs, Some (NoFreePorts portStart portEnd))
          end
      end
  end.

(** [Launch] on a new launcher. *)
Definition Launch (sys : System) (portStart portEnd : Z)
    (paths : list string) : list managedProcess * option LaunchError :=
  Launch_from sys portStart portEnd portStart [] paths.
End launcher.

(** ** Vocabulary of the statements *)

Import GoStrings registry config.

Abbreviation bytes := String.list_ascii_of_string.
Abbreviation str := String.string_of_list_ascii.

Definition hyphen : ascii := "-"%char.

(** The shape of a slug: characters of [[a-z0-9-]] only, not empty, no
    hyphen at either end, no two hyphens in a row. *)
Record slug_shaped (s : list ascii) : Prop := {
  shaped_chars : Forall (λ c, is_slug_char c = true) s;
  shaped_nonempty : s ≠ [];
  shaped_head : head s ≠ Some hyphen;
  shaped_last : last s ≠ Some hyphen;
  shaped_runs : ∀ l1 l2, s ≠ l1 ++ hyphen :: hyphen :: l2
}.

(** Tables in which no rune outside ASCII has a lower-case form; they give
    the concrete instances the general statements are tried on. *)
Definition caseless_tables : UnicodeTables := λ s, s.

(** The registry invariants I1 to I4. *)
Definition I1 (r : Registry) : Prop :=
  ∀ s b, backends r !! s = Some b → byPort r !! Port b = Some s.

Definition I2 (r : Registry) : Prop :=
  (∀ p s, byPort r !! p = Some s → is_Some (backends r !! s))
  ∧ (∀ p q s, byPort r !! p = Some s → byPort r !! q = Some s → p = q).

Definition I3 (r : Registry) : Prop :=
  (∀ s b, backends r !! s = Some b →
     ∀ p, byPort r !! p = Some s ↔ p = Port b)
  ∧ (∀ p s, byPort r !! p = Some s →
       ∃ b, backends r !! s = Some b ∧ Port b = p).

Definition I4 (r : Registry) : Prop :=
  ∀ s b, backends r !! s = Some b → Slug b = s.

(** One call of [Upsert] or of [Prune]. *)
Inductive call :=
| CallUpsert (now port : Z) (projectName projectPath version : string)
| CallPrune (now : Z).

Section with_tables.
Context `{UnicodeTables}.

Definition run_call (r : Registry) (c : call) : Registry :=
  match c with
  | CallUpsert now port name path version =>
      (Upsert now port name path version r).1
  | CallPrune now => (Prune now r).1
  end.

(** The registry after a sequence of calls on a new registry. *)
Definition run (staleAfter : Z) (calls : list call) : Registry :=
  foldl run_call (New staleAfter) calls.

Definition reachable (r : Registry) : Prop :=
  ∃ staleAfter calls, r = run staleAfter calls.
End with_tables.

(** The index [backends] after the first step of [Upsert], which drops the
    backend that held the port under another slug. *)
Definition after_port_check (port : Z) (slug : string) (r : Registry)
    : gmap string Backend :=
  match byPort r !! port with
  | Some oldSlug =>
      if bool_decide (oldSlug ≠ slug) then delete oldSlug (backends r)
      else backends r
  | None => backends r
  end.

(** The entries of a list that [Prune] at [now] removes. *)
Definition dead (now staleAfter : Z) (l : list (string * Backend))
    : list (string * Backend) :=
  filter (λ e, stale now staleAfter e.2 = true) l.

(** A key of the index [backends]: not empty, characters of [[a-z0-9-]]. *)
Definition slug_key (s : string) : Prop :=
  s ≠ EmptyString ∧ Forall (λ c, is_slug_char c = true) (bytes s).

Definition keys_shaped (r : Registry) : Prop :=
  ∀ s b, backends r !! s = Some b → slug_key s.

(** The calls that leave two ports on one slug, and the call after them
    that leaves a port on a slug with no backend. *)
Definition overwriting_calls : list call :=
  [ CallUpsert 0 5000 "proj-4097" "/a/proj-4097" "1";
    CallUpsert 1 4096 "proj" "/a/proj" "1";
    CallUpsert 2 4097 "proj" "/b/proj" "1" ].

Definition orphaning_calls : list call :=
  overwriting_calls ++ [ CallUpsert 3 5000 "other" "/a/other" "1" ].

(** A request the host-based routing does not take: the host gives no
    slug, or the slug is not registered.  Likewise for the path-based
    routing. *)
Definition host_unmatched (rt : proxy.Router) (r : proxy.Request) : Prop :=
  proxy.slugFromHost rt (proxy.Host r) = EmptyString
  ∨ Lookup (proxy.reg rt) (proxy.slugFromHost rt (proxy.Host r)) = None.

Definition path_unmatched (rt : proxy.Router) (r : proxy.Request) : Prop :=
  (proxy.slugFromPath (proxy.Path r)).1 = EmptyString
  ∨ Lookup (proxy.reg rt) (proxy.slugFromPath (proxy.Path r)).1 = None.

(** Every backend of the snapshot has a live service handle. *)
Definition all_advertised (backends : list Backend)
    (a : discovery.Advertiser) : Prop :=
  ∀ b, b ∈ backends → is_Some (discovery.servers a !! Slug b).

(** Concrete routers, requests and networks for the instances below. *)
Definition example_cfg : Config :=
  {| ListenPort := 8080; Username := "alice";
     MDNSServiceType := "_opencode._tcp" |}.

Definition proj_router : proxy.Router :=
  {| proxy.reg := run (H := caseless_tables) 30
                    [ CallUpsert 0 4096 "proj" "/a/proj" "1" ];
     proxy.cfg := example_cfg |}.

Definition api_router : proxy.Router :=
  {| proxy.reg := run (H := caseless_tables) 30
                    [ CallUpsert 0 4096 "api" "/a/api" "1" ];
     proxy.cfg := example_cfg |}.

Definition empty_router : proxy.Router :=
  {| proxy.reg := New 30; proxy.cfg := example_cfg |}.

Definition get (path : string) (query : gmap string (list string))
    : proxy.Request :=
  {| proxy.Method := "GET"; proxy.Host := "localhost:8080";
     proxy.Path := path; proxy.Query := query |}.

Definition proj_backend : Backend :=
  {| Port := 4096; ProjectName := "proj"; ProjectPath := "/a/proj";
     Slug := "proj"; Version := "1"; LastSeen := 0 |}.

Definition api_backend : Backend :=
  {| Port := 4096; ProjectName := "api"; ProjectPath := "/a/api";
     Slug := "api"; Version := "1"; LastSeen := 0 |}.

Definition network (script : list bool) : discovery.Network :=
  {| discovery.fresh := 0%nat; discovery.script := script;
     discovery.trace := [] |}.

(** The key a slug collision is registered under:
    [fmt.Sprintf("%s-%d", slug, port)]. *)
Definition disambiguated (slug : string) (port : Z) : string :=
  slug +:+ "-" +:+ FormatInt port.

(** The path the backend receives for the suffix [t] of the inbound path. *)
Definition stripped (t : string) : string :=
  if bool_decide (t = EmptyString) then "/" else t.

(** The two calls of the port reassignment scenario. *)
Definition reassignment_calls (now1 now2 : Z) : list call :=
  [ CallUpsert now1 4096 "proj" "/h/a/proj" "1";
    CallUpsert now2 4097 "proj" "/h/a/proj" "1" ].

(** A router whose only backend was upserted with a negative port. *)
Definition negative_port_router : proxy.Router :=
  {| proxy.reg := run (H := caseless_tables) 30
                    [ CallUpsert 0 (-1) "proj" "/a/proj" "1" ];
     proxy.cfg := example_cfg |}.

Definition health_request : proxy.Request :=
  get "/proj/api/v1/health" ∅.

Definition suffix_request : proxy.Request := get "/projx" ∅.

Definition negative_port_request : proxy.Request := get "/proj/x" ∅.

Definition backends_request : proxy.Request := get "/api/backends" ∅.

Definition ghost_request : proxy.Request :=
  get "/api/resolve" {[ "name" := ["ghost"] ]}.

Definition empty_name_request : proxy.Request :=
  get "/api/resolve" {[ "name" := [EmptyString] ]}.

Definition advertiser (script : list bool)
    : discovery.Advertiser * discovery.Network :=
  (discovery.New example_cfg, network script).

(** A registry with a backend last seen at 0 and one last seen at 80, and
    the former. *)
Definition mixed_registry : Registry :=
  run (H := caseless_tables) 50
    [ CallUpsert 0 4096 "old" "/a/old" "1";
      CallUpsert 80 4097 "new" "/a/new" "1" ].

Definition old_backend : Backend :=
  {| Port := 4096; ProjectName := "old"; ProjectPath := "/a/old";
     Slug := "old"; Version := "1"; LastSeen := 0 |}.

(** ** Vocabulary of the further properties *)

Section with_tables.
Context `{UnicodeTables}.

(** An [Upsert] that is a slug collision and finds its disambiguated key
    taken. *)
Definition overwrites (port : Z) (path : string) (r : Registry) : Prop :=
  ∃ existing,
    after_port_check port (Slugify path) r !! Slugify path = Some existing
    ∧ ProjectPath existing ≠ path ∧ Port existing ≠ port
    ∧ is_Some (after_port_check port (Slugify path) r
                 !! disambiguated (Slugify path) port).

(** No call of the sequence, run from [r], is such an [Upsert]. *)
Fixpoint no_overwrite (r : Registry) (calls : list call) : Prop :=
  match calls with
  | [] => True
  | c :: rest =>
      match c with
      | CallUpsert _ port _ path _ => ¬ overwrites port path r
      | CallPrune _ => True
      end
      ∧ no_overwrite (run_call r c) rest
  end.
End with_tables.

(** An ASCII byte that is neither a letter nor a digit. *)
Definition is_symbol (c : ascii) : bool :=
  is_ascii c && negb (is_lower c || is_upper c || is_digit c).

(** A string without a colon. *)
Definition colon_free (s : string) : Prop :=
  Forall (λ c, Ascii.eqb c ":" = false) (bytes s).

(** The service [register] asks the library to advertise for a backend. *)
Definition service_for (cfg : Config) (b : Backend) : discovery.Service :=
  {| discovery.instance := Slug b;
     discovery.service := MDNSServiceType cfg;
     discovery.domain := "local.";
     discovery.port := ListenPort cfg;
     discovery.host := DomainFor cfg (Slug b);
     discovery.text :=
       [ "project=" +:+ ProjectName b; "path=" +:+ ProjectPath b;
         "backend=127.0.0.1:" +:+ FormatInt (Port b);
         "owner=" +:+ Username cfg ]
       ++ (if bool_decide (Version b ≠ EmptyString)
           then ["version=" +:+ Version b] else []) |}.

(** The events of the first loop of [Sync]. *)
Definition shutdowns (cur : gset string) (l : list (string * discovery.Handle))
    : list discovery.event :=
  (λ e, discovery.ShutDown e.2) <$> filter (λ e, e.1 ∉ cur) l.

(** An attempt to register a backend of the list. *)
Definition registration_of (cfg : Config) (backends : list Backend)
    (ev : discovery.event) : Prop :=
  ∃ b, b ∈ backends
       ∧ (ev = discovery.RegistrationFailed (service_for cfg b)
          ∨ ∃ srv, ev = discovery.Registered (service_for cfg b) srv).

(** Every backend of the registry listens on a port between [lo] and
    [hi]. *)
Definition ports_within (lo hi : Z) (r : Registry) : Prop :=
  ∀ key b, backends r !! key = Some b → lo ≤ Port b ≤ hi.

Section with_tables.
Context `{UnicodeTables}.
(** The registry after scan passes on a new registry; a pass is the probes
    in the order they take the lock, and the clock reading of its
    [Prune]. *)
Definition scans (staleAfter : Z) (passes : list (list scanner.probe * Z))
    : Registry :=
  foldl (λ r pass, (scanner.scan pass.1 pass.2 r).1) (New staleAfter) passes.
End with_tables.

(** The ports of the processes, in the order they were started, grow. *)
Fixpoint increasing (ports : list Z) : Prop :=
  match ports with
  | [] => True
  | p :: rest => Forall (λ q, p < q) rest ∧ increasing rest
  end.

(** What holds of [procs] while [Launch] runs. *)
Definition launched (sys : launcher.System) (portStart : Z)
    (paths : list string) (nextPort : Z)
    (procs : list launcher.managedProcess) : Prop :=
  Forall (λ mp, launcher.portInUse sys (launcher.port mp) = false
                ∧ portStart ≤ launcher.port mp < nextPort
                ∧ launcher.start sys (launcher.path mp) (launcher.port mp)
                  = true
                ∧ ∃ dir, dir ∈ paths
                         ∧ launcher.directory sys dir
                           = Some (launcher.path mp)) procs
  ∧ increasing (launcher.port <$> procs).

(** * Properties *)

(** ** The model on the tables of the repository's tests *)

Section test_tables.
Context `{UnicodeTables}.

Example TestSlugify :
  Slugify <$> [ "/home/alice/myproject"; "/home/alice/MyProject";
                "/home/alice/My Awesome Project"; "/home/alice/project.v2";
                "/home/alice/my_project_name"; "/home/alice/proj@#$%ect!";
                "/home/alice/---project---"; "/home/alice/a---b---c";
                "/"; "."; "relative/path/to/project";
                "/opt/code/Hello World v2.1!"; "/home/alice/12345";
                "/home/alice/clean-slug" ]
  = [ "myproject"; "myproject"; "my-awesome-project"; "project-v2";
      "my-project-name"; "proj-ect"; "project"; "a-b-c"; "default";
      "default"; "project"; "hello-world-v2-1"; "12345"; "clean-slug" ].
Proof. vm_compute. reflexivity. Qed.

Example TestUpsert_ProjectChangedOnSamePort (now1 now2 : Z) :
  Lookup (run 30 [ CallUpsert now1 4096 "old" "/h/a/old" "1";
                   CallUpsert now2 4096 "new" "/h/a/new" "1" ]) "old" = None
  ∧ Port <$> Lookup (run 30 [ CallUpsert now1 4096 "old" "/h/a/old" "1";
                              CallUpsert now2 4096 "new" "/h/a/new" "1" ])
               "new" = Some 4096
  ∧ byPort (run 30 [ CallUpsert now1 4096 "old" "/h/a/old" "1";
                     CallUpsert now2 4096 "new" "/h/a/new" "1" ]) !! 4096
    = Some "new".
Proof. repeat split; vm_compute; reflexivity. Qed.

Example TestPrune_RemovesStale :
  (Prune 100 (run 50 [ CallUpsert 0 4096 "proj" "/h/a/proj" "1" ])).2
  = ["proj"]
  ∧ Len (Prune 100 (run 50 [ CallUpsert 0 4096 "proj" "/h/a/proj" "1" ])).1
    = 0%nat.
Proof. split; vm_compute; reflexivity. Qed.
End test_tables.

Example TestSlugFromHost :
  proxy.slugFromHost
    {| proxy.reg := New 30;
       proxy.cfg := {| ListenPort := 8080; Username := "testuser";
                       MDNSServiceType := "_opencode._tcp" |} |}
  <$> [ "myproject-testuser.local"; "myproject-testuser.local:8080";
        "myproject-otheruser.local"; "myproject-testuser.com";
        "-testuser.local"; "testuser.local"; EmptyString; "localhost";
        "localhost:8080"; "my-cool-project-testuser.local";
        "proj123-testuser.local:9090" ]
  = [ "myproject"; "myproject"; EmptyString; EmptyString; EmptyString;
      EmptyString; EmptyString; EmptyString; EmptyString;
      "my-cool-project"; "proj123" ].
Proof. vm_compute. reflexivity. Qed.

Example TestSlugFromPath :
  proxy.slugFromPath
  <$> [ "/myproject/api/v1"; "/myproject"; "/myproject/"; "/"; EmptyString;
        "/proj/a/b/c/d"; "/api/backends" ]
  = [ ("myproject", "/api/v1"); ("myproject", "/"); ("myproject", "/");
      (EmptyString, EmptyString); (EmptyString, EmptyString);
      ("proj", "/a/b/c/d"); ("api", "/backends") ].
Proof. vm_compute. reflexivity. Qed.

(** ** Strings *)

Lemma bytes_app (a b : string) : bytes (a +:+ b) = bytes a ++ bytes b.
Proof. induction a as [|c a IH]; simpl; [done|]. by rewrite IH. Qed.

Lemma is_hyphen_spec c : is_hyphen c = true ↔ c = hyphen.
Proof. unfold is_hyphen. apply Ascii.eqb_eq. Qed.

Lemma slug_char_facts c :
  is_slug_char c = true →
  is_ascii c = true ∧ is_upper c = false ∧ is_separator c = false.
Proof.
  destruct c as [[] [] [] [] [] [] [] []]; vm_compute; intuition congruence.
Qed.

Lemma drop_while_split p s :
  ∃ l, s = l ++ drop_while p s ∧ Forall (λ c, p c = true) l.
Proof.
  induction s as [|c s IH]; simpl.
  - by exists [].
  - destruct (p c) eqn:E.
    + destruct IH as (l & Hl & Hf). exists (c :: l).
      split; [simpl; by rewrite <- Hl|by constructor].
    + by exists [].
Qed.

Lemma drop_while_head p s c :
  head (drop_while p s) = Some c → p c = false.
Proof.
  induction s as [|d s IH]; simpl; [done|].
  destruct (p d) eqn:E; [done|]. simpl. congruence.
Qed.

Lemma drop_while_stop p s :
  (∀ c, head s = Some c → p c = false) → drop_while p s = s.
Proof.
  destruct s as [|c s]; simpl; [done|]. intros Hh. by rewrite Hh.
Qed.

Lemma take_while_all p s :
  Forall (λ c, p c = true) s → take_while p s = s.
Proof. induction 1 as [|c s Hc _ IH]; simpl; [done|]. by rewrite Hc, IH. Qed.

Lemma replace_from_chars k s :
  Forall (λ c, is_slug_char c = true) (replace_from k s).
Proof.
  revert k. induction s as [|c s IH]; intros k; simpl; [constructor|].
  destruct k; [|apply IH].
  destruct (is_slug_char c) eqn:E; constructor; auto.
Qed.

Lemma replace_from_id s :
  Forall (λ c, is_slug_char c = true) s → replace_from 0 s = s.
Proof. induction 1 as [|c s Hc _ IH]; simpl; [done|]. by rewrite Hc, IH. Qed.

Lemma collapse_from_chars b s :
  Forall (λ c, is_slug_char c = true) s →
  Forall (λ c, is_slug_char c = true) (collapse_from b s).
Proof.
  intros Hs. revert b.
  induction Hs as [|c s Hc _ IH]; intros b; simpl; [constructor|].
  destruct (is_hyphen c); [destruct b|]; try constructor; auto.
Qed.

Lemma collapse_from_head s c :
  head (collapse_from true s) = Some c → c ≠ hyphen.
Proof.
  induction s as [|d s IH]; simpl; [done|].
  destruct (is_hyphen d) eqn:E; [done|].
  simpl. intros [= <-] ->. by vm_compute in E.
Qed.

Lemma collapse_from_runs b s l1 l2 :
  collapse_from b s ≠ l1 ++ hyphen :: hyphen :: l2.
Proof.
  revert b l1. induction s as [|c s IH]; intros b l1; simpl.
  - by destruct l1.
  - destruct (is_hyphen c) eqn:E.
    + destruct b; [apply IH|].
      destruct l1 as [|d l1]; simpl.
      * intros [= Hc].
        destruct (collapse_from true s) as [|e t] eqn:Ht; [done|].
        injection Hc as -> _.
        by apply (collapse_from_head s hyphen); [rewrite Ht|].
      * intros [= _ Hc]. by eapply IH.
    + destruct l1 as [|d l1]; simpl.
      * intros [= -> _]. by vm_compute in E.
      * intros [= _ Hc]. by eapply IH.
Qed.

Lemma collapse_from_id b s :
  (∀ l1 l2, s ≠ l1 ++ hyphen :: hyphen :: l2) →
  (b = true → head s ≠ Some hyphen) →
  collapse_from b s = s.
Proof.
  revert b. induction s as [|c s IH]; intros b Hruns Hhead; simpl; [done|].
  assert (Htail : ∀ l1 l2, s ≠ l1 ++ hyphen :: hyphen :: l2).
  { intros l1 l2 ->. by apply (Hruns (c :: l1) l2). }
  destruct (is_hyphen c) eqn:E.
  - apply is_hyphen_spec in E as ->.
    destruct b; [by destruct Hhead|].
    f_equal. apply IH; [done|]. intros _ Hs.
    destruct s as [|d s]; [done|]. injection Hs as ->.
    by apply (Hruns [] s).
  - f_equal. by apply IH.
Qed.
Lemma Trim_hyphen_split s :
  ∃ l1 l2, s = l1 ++ Trim_hyphen s ++ l2.
Proof.
  unfold Trim_hyphen.
  destruct (drop_while_split is_hyphen s) as (l1 & Hs & _).
  destruct (drop_while_split is_hyphen (rev (drop_while is_hyphen s)))
    as (l2 & Hr & _).
  exists l1, (rev l2). rewrite Hs at 1. f_equal.
  rewrite <- rev_app_distr, <- Hr. by rewrite rev_involutive.
Qed.

Lemma last_rev (s : list ascii) : last (rev s) = head s.
Proof. destruct s as [|c s]; [done|]. simpl. by rewrite last_snoc. Qed.

Lemma head_rev (s : list ascii) : head (rev s) = last s.
Proof. by rewrite <- last_rev, rev_involutive. Qed.

Lemma last_app_nonempty (l s : list ascii) : s ≠ [] → last (l ++ s) = last s.
Proof.
  intros Hs. destruct s as [|c s] using rev_ind; [done|].
  by rewrite app_assoc, !last_snoc.
Qed.

Lemma Trim_hyphen_head s : head (Trim_hyphen s) ≠ Some hyphen.
Proof.
  unfold Trim_hyphen. rewrite head_rev.
  set (t := drop_while is_hyphen s).
  destruct (drop_while_split is_hyphen (rev t)) as (l & Hr & _).
  destruct (drop_while is_hyphen (rev t)) as [|c u] eqn:Hd; [done|].
  rewrite <- (last_app_nonempty l) by done. rewrite <- Hr, last_rev.
  intros Hh. apply drop_while_head in Hh. by vm_compute in Hh.
Qed.

Lemma Trim_hyphen_last s : last (Trim_hyphen s) ≠ Some hyphen.
Proof.
  unfold Trim_hyphen. rewrite last_rev.
  intros Hh. apply drop_while_head in Hh. by vm_compute in Hh.
Qed.

Lemma Trim_hyphen_id s :
  head s ≠ Some hyphen → last s ≠ Some hyphen → Trim_hyphen s = s.
Proof.
  intros Hh Hl. unfold Trim_hyphen.
  assert (Hstop : ∀ t, head t ≠ Some hyphen → drop_while is_hyphen t = t).
  { intros t Ht. apply drop_while_stop. intros c Hc.
    destruct (is_hyphen c) eqn:E; [|done].
    apply is_hyphen_spec in E as ->. done. }
  rewrite (Hstop s) by done.
  rewrite Hstop by (by rewrite head_rev).
  apply rev_involutive.
Qed.

Lemma Base_id s :
  s ≠ [] → Forall (λ c, is_separator c = false) s → Base s = s.
Proof.
  intros Hne Hs. unfold Base. destruct s as [|c s]; [done|].
  set (p := c :: s) in *.
  assert (Hrev : Forall (λ c, is_separator c = false) (rev p)).
  { apply Forall_forall. intros d Hd. apply list_elem_of_In, in_rev, list_elem_of_In in Hd.
    by eapply Forall_forall in Hs. }
  rewrite drop_while_stop.
  2:{ intros d Hd. eapply Forall_forall in Hrev; [exact Hrev|].
      destruct (rev p); [done|]. injection Hd as ->. constructor. }
  rewrite take_while_all.
  2:{ eapply Forall_impl; [exact Hrev|]. simpl. intros d ->. done. }
  rewrite rev_involutive. done.
Qed.

Section slugify.
Context `{UnicodeTables}.

Lemma ToLower_id s :
  Forall (λ c, is_ascii c = true) s →
  Forall (λ c, is_upper c = false) s →
  ToLower s = s.
Proof.
  intros Ha Hu. unfold ToLower.
  rewrite (proj2 (forallb_forall _ _)).
  2:{ intros c Hc. apply list_elem_of_In in Hc. by eapply Forall_forall in Ha. }
  destruct (existsb is_upper s) eqn:E; [|done].
  apply existsb_exists in E as (c & Hc & Hup).
  apply list_elem_of_In in Hc. eapply Forall_forall in Hu; [|done]. congruence.
Qed.

Lemma default_shaped : slug_shaped (String.list_ascii_of_string "default").
Proof.
  split; simpl.
  - repeat constructor.
  - done.
  - done.
  - done.
  - intros l1 l2 Heq.
    do 7 (destruct l1 as [|? l1]; [discriminate Heq|injection Heq as _ Heq]).
    destruct l1; discriminate Heq.
Qed.

Lemma Slugify_bytes_shaped x : slug_shaped (Slugify_bytes x).
Proof.
  unfold Slugify_bytes.
  set (t := multiHyphen_ReplaceAll (nonAlphaNum_ReplaceAll (ToLower (Base x)))).
  destruct (Trim_hyphen t) as [|c u] eqn:Ht; [apply default_shaped|].
  rewrite <- Ht.
  destruct (Trim_hyphen_split t) as (l1 & l2 & Hsplit).
  assert (Hchars : Forall (λ c, is_slug_char c = true) t).
  { apply collapse_from_chars, replace_from_chars. }
  split.
  - rewrite Hsplit in Hchars.
    apply Forall_app in Hchars as [_ Hchars].
    by apply Forall_app in Hchars as [Hchars _].
  - by rewrite Ht.
  - apply Trim_hyphen_head.
  - apply Trim_hyphen_last.
  - intros m1 m2 Hm. rewrite Hm in Hsplit.
    apply (collapse_from_runs false (nonAlphaNum_ReplaceAll (ToLower (Base x)))
             (l1 ++ m1) (m2 ++ l2)).
    fold (multiHyphen_ReplaceAll (nonAlphaNum_ReplaceAll (ToLower (Base x)))).
    fold t. rewrite Hsplit. by rewrite <- !app_assoc.
Qed.

Lemma Slugify_bytes_fixed s : slug_shaped s → Slugify_bytes s = s.
Proof.
  intros [Hchars Hne Hhead Hlast Hruns]. unfold Slugify_bytes.
  rewrite Base_id; [|done|].
  2:{ eapply Forall_impl; [exact Hchars|]. intros c Hc. by apply slug_char_facts in Hc as (_ & _ & ?). }
  rewrite ToLower_id.
  2,3: eapply Forall_impl; [exact Hchars| intros c Hc; by apply slug_char_facts in Hc as (? & ? & ?)].
  unfold nonAlphaNum_ReplaceAll, multiHyphen_ReplaceAll.
  rewrite replace_from_id by done.
  rewrite collapse_from_id by done.
  rewrite Trim_hyphen_id by done.
  by destruct s.
Qed.
End slugify.


(** C5.  [Slugify] is idempotent, and its result has only characters of
    [[a-z0-9-]], neither starts nor ends with a hyphen, has no two hyphens
    in a row and is not empty, whatever the input string and whatever the
    Unicode case tables. *)
Theorem Slugify_idempotent_shaped `{UnicodeTables} (x : string) :
  Slugify (Slugify x) = Slugify x
  ∧ Forall (λ c, is_slug_char c = true) (bytes (Slugify x))
  ∧ (∀ rest, Slugify x ≠ "-" +:+ rest)
  ∧ (∀ front, Slugify x ≠ front +:+ "-")
  ∧ (∀ front rest, Slugify x ≠ front +:+ "--" +:+ rest)
  ∧ Slugify x ≠ EmptyString.
Proof.
  pose proof (Slugify_bytes_shaped (bytes x)) as Hshape.
  unfold Slugify. set (o := Slugify_bytes (bytes x)) in *.
  rewrite String.list_ascii_of_string_of_list_ascii.
  destruct Hshape as [Hchars Hne Hhead Hlast Hruns].
  repeat split.
  - f_equal. by apply Slugify_bytes_fixed.
  - done.
  - intros rest Heq. apply (f_equal bytes) in Heq.
    rewrite String.list_ascii_of_string_of_list_ascii in Heq.
    apply Hhead. by rewrite Heq.
  - intros front Heq. apply (f_equal bytes) in Heq.
    rewrite String.list_ascii_of_string_of_list_ascii, bytes_app in Heq.
    apply Hlast. rewrite Heq. simpl. by rewrite last_snoc.
  - intros front rest Heq. apply (f_equal bytes) in Heq.
    rewrite String.list_ascii_of_string_of_list_ascii, !bytes_app in Heq.
    by apply (Hruns (bytes front) (bytes rest)).
  - intros Heq. apply (f_equal bytes) in Heq.
    by rewrite String.list_ascii_of_string_of_list_ascii in Heq.
Qed.


(** ** Registry *)

Lemma disambiguated_ne (slug suffix : string) :
  slug +:+ "-" +:+ suffix ≠ slug.
Proof.
  intros Heq. apply (f_equal bytes) in Heq. rewrite !bytes_app in Heq.
  apply (f_equal length) in Heq. rewrite length_app in Heq. simpl in Heq. lia.
Qed.


Lemma Prune_fold now l st :
  let st' := foldl (Prune_step now) st l in
  let d := dead now (staleAfter st.1) l in
  staleAfter st'.1 = staleAfter st.1
  ∧ (∀ s, backends st'.1 !! s =
          if decide (s ∈ d.*1) then None else backends st.1 !! s)
  ∧ (∀ p, byPort st'.1 !! p =
          if decide (p ∈ Port <$> d.*2) then None else byPort st.1 !! p)
  ∧ st'.2 = st.2 ++ d.*1.
Proof.
  revert st. induction l as [|[slug b] l IH]; intros st; simpl.
  - repeat split; try done. by rewrite app_nil_r.
  - specialize (IH (Prune_step now st (slug, b))).
    simpl in IH. destruct IH as (Hst & Hb & Hp & Hr).
    unfold Prune_step in *.
    destruct (stale now (staleAfter st.1) b) eqn:Hs; simpl in *.
    + unfold dead in *. rewrite filter_cons_True by done. simpl.
      split; [done|]. split; [|split].
      * intros s. rewrite Hb.
        destruct (decide (s = slug)) as [->|Hne].
        -- rewrite (decide_True (P := slug ∈ slug :: _)) by apply list_elem_of_here.
           case_decide; [done|]. by rewrite lookup_delete_eq.
        -- rewrite lookup_delete_ne by done.
           destruct (decide (s ∈ _)) as [Hin|Hin],
                    (decide (s ∈ slug :: _)) as [Hin'|Hin'];
             try done; rewrite elem_of_cons in Hin'; tauto.
      * intros p. rewrite Hp.
        destruct (decide (p = Port b)) as [->|Hne].
        -- rewrite (decide_True (P := Port b ∈ Port b :: _)) by apply list_elem_of_here.
           case_decide; [done|]. by rewrite lookup_delete_eq.
        -- rewrite lookup_delete_ne by done.
           destruct (decide (p ∈ _)) as [Hin|Hin],
                    (decide (p ∈ Port b :: _)) as [Hin'|Hin'];
             try done; rewrite elem_of_cons in Hin'; tauto.
      * rewrite Hr. by rewrite <- app_assoc.
    + unfold dead in *. rewrite filter_cons_False by (simpl; congruence). done.
Qed.


Lemma Prune_indices now r :
  (∀ s, backends (Prune now r).1 !! s =
        match backends r !! s with
        | Some b => if stale now (staleAfter r) b then None else Some b
        | None => None
        end)
  ∧ (∀ p, byPort (Prune now r).1 !! p =
          if decide (p ∈ Port <$> (dead now (staleAfter r)
                                     (map_to_list (backends r))).*2)
          then None else byPort r !! p)
  ∧ (∀ s b, (s, b) ∈ dead now (staleAfter r) (map_to_list (backends r)) ↔
            backends r !! s = Some b ∧ stale now (staleAfter r) b = true).
Proof.
  unfold Prune.
  destruct (Prune_fold now (map_to_list (backends r)) (r, []))
    as (Hst & Hb & Hp & Hr). simpl in *.
  assert (Hd : ∀ s b,
            (s, b) ∈ dead now (staleAfter r) (map_to_list (backends r)) ↔
            backends r !! s = Some b ∧ stale now (staleAfter r) b = true).
  { intros s b. unfold dead. rewrite list_elem_of_filter. simpl.
    rewrite elem_of_map_to_list. tauto. }
  split; [|split]; [|done|done].
  intros s. rewrite Hb. case_decide as Hin.
  - apply list_elem_of_fmap in Hin as ([s' b] & -> & Hin).
    simpl. apply Hd in Hin as [Hs Hstale]. by rewrite Hs, Hstale.
  - destruct (backends r !! s) as [b|] eqn:Hs; [|done].
    destruct (stale now (staleAfter r) b) eqn:Hstale; [|done].
    destruct Hin. apply list_elem_of_fmap. exists (s, b).
    split; [done|]. by apply Hd.
Qed.

Lemma Prune_I1 now r : I1 r → I1 (Prune now r).1.
Proof.
  intros HI1 s b. destruct (Prune_indices now r) as (Hb & Hp & Hd).
  rewrite Hb, Hp. destruct (backends r !! s) as [b'|] eqn:Hs; [|done].
  destruct (stale now (staleAfter r) b') eqn:Hfresh; [done|].
  intros [= ->]. rewrite decide_False; [by apply HI1|].
  intros (b' & Hport & ([s' b''] & -> & Hin)%list_elem_of_fmap)%list_elem_of_fmap.
  simpl in *. apply Hd in Hin as [Hs' Hstale].
  pose proof (HI1 _ _ Hs) as Hown. pose proof (HI1 _ _ Hs') as Hown'.
  rewrite Hport in Hown. assert (s = s') by congruence. subst s'.
  congruence.
Qed.

Section upsert.
Context `{UnicodeTables}.


Lemma after_port_check_lookup port slug r s b :
  after_port_check port slug r !! s = Some b → backends r !! s = Some b.
Proof.
  unfold after_port_check. destruct (byPort r !! port) as [old|]; [|done].
  case_bool_decide; [|done].
  intros Hs. apply lookup_delete_Some in Hs. tauto.
Qed.

Lemma after_port_check_owner port slug r s b :
  I1 r → after_port_check port slug r !! s = Some b → Port b = port →
  s = slug.
Proof.
  intros HI1 Hs Hp.
  pose proof (after_port_check_lookup _ _ _ _ _ Hs) as Hr.
  apply HI1 in Hr. rewrite Hp in Hr.
  unfold after_port_check in Hs. rewrite Hr in Hs.
  case_bool_decide as Hne; [|by destruct (decide (s = slug))].
  apply lookup_delete_Some in Hs. tauto.
Qed.

Lemma Upsert_cases now port name path version r :
  let slug := Slugify path in
  let b1 := after_port_check port slug r in
  let fresh s := {| Port := port; ProjectName := name; ProjectPath := path;
                    Slug := s; Version := version; LastSeen := now |} in
  (∃ existing,
      b1 !! slug = Some existing
      ∧ (ProjectPath existing = path ∨ Port existing = port)
      ∧ Upsert now port name path version r =
          ({| backends := <[slug := fresh (Slug existing)]> b1;
              byPort := <[port := slug]>
                          (if bool_decide (Port existing ≠ port)
                           then delete (Port existing) (byPort r)
                           else byPort r);
              staleAfter := staleAfter r |}, false))
  ∨ (∃ existing,
      b1 !! slug = Some existing
      ∧ ProjectPath existing ≠ path ∧ Port existing ≠ port
      ∧ Upsert now port name path version r =
          ({| backends :=
                <[slug +:+ "-" +:+ FormatInt port :=
                    fresh (slug +:+ "-" +:+ FormatInt port)]> b1;
              byPort := <[port := slug +:+ "-" +:+ FormatInt port]> (byPort r);
              staleAfter := staleAfter r |}, true))
  ∨ (b1 !! slug = None
      ∧ Upsert now port name path version r =
          ({| backends := <[slug := fresh slug]> b1;
              byPort := <[port := slug]> (byPort r);
              staleAfter := staleAfter r |}, true)).
Proof.
  intros slug b1 fresh. unfold Upsert. fold slug.
  change (match byPort r !! port with
          | Some oldSlug =>
              if bool_decide (oldSlug ≠ slug) then delete oldSlug (backends r)
              else backends r
          | None => backends r
          end) with b1.
  destruct (b1 !! slug) as [existing|] eqn:Hex.
  - destruct (bool_decide (ProjectPath existing = path)) eqn:Hp;
      [|destruct (bool_decide (Port existing = port)) eqn:Hq]; simpl.
    + left. exists existing. apply bool_decide_eq_true in Hp. eauto.
    + left. exists existing. apply bool_decide_eq_true in Hq. eauto.
    + right. left. exists existing.
      apply bool_decide_eq_false in Hp, Hq. eauto.
  - right. right. eauto.
Qed.

Lemma Upsert_I1 now port name path version r :
  I1 r → I1 (Upsert now port name path version r).1.
Proof.
  intros HI1.
  pose proof (after_port_check_owner port (Slugify path) r) as Hown.
  pose proof (after_port_check_lookup port (Slugify path) r) as Hsub.
  destruct (Upsert_cases now port name path version r)
    as [(ex & Hex & Hcond & ->)|[(ex & Hex & Hp & Hq & ->)|(Hnone & ->)]];
    unfold I1; simpl; intros s b Hs.
  - apply lookup_insert_Some in Hs as [[<- <-]|[Hne Hs]]; simpl.
    + by rewrite lookup_insert_eq.
    + assert (Port b ≠ port) by (intros Hp; by apply Hne, eq_sym, (Hown s b)).
      rewrite lookup_insert_ne by done.
      pose proof (HI1 _ _ (Hsub _ _ Hs)) as Hb.
      case_bool_decide; [|done].
      rewrite lookup_delete_ne; [done|].
      intros Heq. rewrite <- Heq in Hb.
      rewrite (HI1 _ _ (Hsub _ _ Hex)) in Hb. congruence.
  - apply lookup_insert_Some in Hs as [[<- <-]|[Hne Hs]]; simpl.
    + by rewrite lookup_insert_eq.
    + assert (Port b ≠ port).
      { intros Hpb. pose proof (Hown s b HI1 Hs Hpb) as ->. congruence. }
      rewrite lookup_insert_ne by done. apply HI1. by apply Hsub.
  - apply lookup_insert_Some in Hs as [[<- <-]|[Hne Hs]]; simpl.
    + by rewrite lookup_insert_eq.
    + assert (Port b ≠ port) by (intros Hp; by apply Hne, eq_sym, (Hown s b)).
      rewrite lookup_insert_ne by done. apply HI1. by apply Hsub.
Qed.

Lemma Upsert_I4 now port name path version r :
  I4 r → I4 (Upsert now port name path version r).1.
Proof.
  intros HI4.
  pose proof (after_port_check_lookup port (Slugify path) r) as Hsub.
  destruct (Upsert_cases now port name path version r)
    as [(ex & Hex & Hcond & ->)|[(ex & Hex & Hp & Hq & ->)|(Hnone & ->)]];
    unfold I4; simpl; intros s b Hs;
    apply lookup_insert_Some in Hs as [[<- <-]|[Hne Hs]]; simpl;
    try done; try (by apply HI4, Hsub).
Qed.
End upsert.




Lemma string_of_uint_chars d :
  Forall (λ c, is_slug_char c = true) (bytes (NilEmpty.string_of_uint d)).
Proof. induction d; simpl; by constructor. Qed.

Lemma FormatInt_chars n :
  Forall (λ c, is_slug_char c = true) (bytes (FormatInt n)).
Proof.
  unfold FormatInt.
  assert (Hu : ∀ d, Forall (λ c, is_slug_char c = true)
                      (bytes (NilZero.string_of_uint d))).
  { intros d. unfold NilZero.string_of_uint.
    destruct d; try apply string_of_uint_chars. by repeat constructor. }
  destruct (Z.to_int n); simpl; [apply Hu|]. constructor; [done|apply Hu].
Qed.

Section registry_properties.
Context `{UnicodeTables}.

Lemma Slugify_key path : slug_key (Slugify path).
Proof.
  destruct (Slugify_bytes_shaped (bytes path)) as [Hchars Hne _ _ _].
  unfold Slugify. split.
  - intros Heq. apply (f_equal bytes) in Heq.
    by rewrite String.list_ascii_of_string_of_list_ascii in Heq.
  - by rewrite String.list_ascii_of_string_of_list_ascii.
Qed.

Lemma disambiguated_key path port :
  slug_key (Slugify path +:+ "-" +:+ FormatInt port).
Proof.
  destruct (Slugify_key path) as [Hne Hchars]. split.
  - intros Heq. apply Hne. by destruct (Slugify path).
  - rewrite !bytes_app. apply Forall_app. split; [done|].
    apply Forall_app. split; [by repeat constructor|apply FormatInt_chars].
Qed.


Lemma Upsert_keys now port name path version r :
  keys_shaped r → keys_shaped (Upsert now port name path version r).1.
Proof.
  intros Hk.
  pose proof (after_port_check_lookup port (Slugify path) r) as Hsub.
  destruct (Upsert_cases now port name path version r)
    as [(ex & Hex & Hcond & ->)|[(ex & Hex & Hp & Hq & ->)|(Hnone & ->)]];
    unfold keys_shaped; simpl; intros s b Hs;
    apply lookup_insert_Some in Hs as [[<- <-]|[Hne Hs]];
    eauto using Slugify_key, disambiguated_key.
Qed.

Lemma Prune_keys now r : keys_shaped r → keys_shaped (Prune now r).1.
Proof.
  intros Hk s b. destruct (Prune_indices now r) as (Hb & _ & _).
  rewrite Hb. destruct (backends r !! s) as [b'|] eqn:Hs; [|done].
  intros _. by eapply Hk.
Qed.

Lemma Prune_I4 now r : I4 r → I4 (Prune now r).1.
Proof.
  intros HI4 s b. destruct (Prune_indices now r) as (Hb & _ & _).
  rewrite Hb. destruct (backends r !! s) as [b'|] eqn:Hs; [|done].
  destruct (stale now (staleAfter r) b'); [done|].
  intros [= <-]. by apply HI4.
Qed.

Lemma run_snoc staleAfter calls c :
  run staleAfter (calls ++ [c]) = run_call (run staleAfter calls) c.
Proof. unfold run. by rewrite foldl_snoc. Qed.

(** What does hold of the invariants after every sequence of calls: I1 and
    I4, and every slug is a well-formed key. *)
Lemma reachable_I1_I4 r :
  reachable r → I1 r ∧ I4 r ∧ keys_shaped r.
Proof.
  intros (staleAfter & calls & ->).
  induction calls as [|c calls IH] using rev_ind.
  - unfold run. simpl. split; [|split]; intros s b Hs; simpl in Hs;
      by rewrite lookup_empty in Hs.
  - rewrite run_snoc. destruct IH as (H1 & H4 & Hk).
    destruct c as [now port name path version|now]; simpl.
    + auto using Upsert_I1, Upsert_I4, Upsert_keys.
    + auto using Prune_I1, Prune_I4, Prune_keys.
Qed.

(** C1.  The invariants do not survive every sequence of calls.  A collision
    is registered under [slug + "-" + port] with
    [r.backends[slug] = &Backend{...}], and when another project already
    sits under that very key its backend is overwritten while its entry of
    [byPort] stays: after [overwriting_calls] the ports 5000 and 4097 both
    map to the slug [proj-4097], so [byPort] is not injective (I2) and the
    slug has two owning ports (I3).  I1 and I4 do hold. *)
Theorem collision_overwrite_breaks_I2_I3 :
  reachable (run 30 overwriting_calls)
  ∧ byPort (run 30 overwriting_calls) !! 5000 = Some "proj-4097"
  ∧ byPort (run 30 overwriting_calls) !! 4097 = Some "proj-4097"
  ∧ I1 (run 30 overwriting_calls)
  ∧ ¬ I2 (run 30 overwriting_calls)
  ∧ ¬ I3 (run 30 overwriting_calls)
  ∧ I4 (run 30 overwriting_calls).
Proof.
  set (r := run 30 overwriting_calls).
  assert (Hreach : reachable r) by (by exists 30, overwriting_calls).
  assert (H5000 : byPort r !! 5000 = Some "proj-4097")
    by (vm_compute; reflexivity).
  assert (H4097 : byPort r !! 4097 = Some "proj-4097")
    by (vm_compute; reflexivity).
  destruct (reachable_I1_I4 r Hreach) as (HI1 & HI4 & _).
  repeat (split; [done|]). split; [|split; [|done]].
  - intros [_ Hinj]. by specialize (Hinj _ _ _ H5000 H4097).
  - intros [Hown _].
    assert (Hb : is_Some (backends r !! "proj-4097")) by (vm_compute; eauto).
    destruct Hb as [b Hb].
    pose proof (proj1 (Hown _ _ Hb 5000) H5000).
    pose proof (proj1 (Hown _ _ Hb 4097) H4097). congruence.
Qed.

(** C10.  [LookupByPort] is not total on the states the registry reaches:
    after [orphaning_calls] the port 4097 is still indexed under the slug
    [proj-4097], whose backend the last call deleted, and the lookup
    dereferences nil. *)
Theorem LookupByPort_nil_dereference :
  reachable (run 30 orphaning_calls)
  ∧ byPort (run 30 orphaning_calls) !! 4097 = Some "proj-4097"
  ∧ backends (run 30 orphaning_calls) !! "proj-4097" = None
  ∧ LookupByPort (run 30 orphaning_calls) 4097 = NilDereference.
Proof.
  split; [by exists 30, orphaning_calls|].
  split; [|split]; vm_compute; reflexivity.
Qed.

(** C2.  A true slug collision: when the slug of the path is taken by a
    backend with another project path and another port, [Upsert] registers
    a fresh backend under [slug + "-" + port], points the port at that key,
    returns [true] and leaves the backend under [slug] as it was. *)
Theorem Upsert_collision now port name path version r existing :
  backends r !! Slugify path = Some existing →
  ProjectPath existing ≠ path →
  Port existing ≠ port →
  backends (Upsert now port name path version r).1
    !! disambiguated (Slugify path) port =
    Some {| Port := port; ProjectName := name; ProjectPath := path;
            Slug := disambiguated (Slugify path) port;
            Version := version; LastSeen := now |}
  ∧ byPort (Upsert now port name path version r).1 !! port
    = Some (disambiguated (Slugify path) port)
  ∧ (Upsert now port name path version r).2 = true
  ∧ backends (Upsert now port name path version r).1 !! Slugify path
    = Some existing.
Proof.
  intros Hex Hpath Hport. unfold disambiguated.
  assert (Hb1 : after_port_check port (Slugify path) r !! Slugify path
                = Some existing).
  { unfold after_port_check. destruct (byPort r !! port) as [old|]; [|done].
    case_bool_decide; [|done]. by rewrite lookup_delete_ne. }
  destruct (Upsert_cases now port name path version r)
    as [(ex & Hex' & Hcond & _)|[(ex & Hex' & _ & _ & ->)|(Hnone & _)]].
  - simpl in Hex'. rewrite Hb1 in Hex'. injection Hex' as <-. tauto.
  - simpl. rewrite !lookup_insert_eq.
    rewrite lookup_insert_ne by apply disambiguated_ne. done.
  - simpl in Hnone. congruence.
Qed.

(** C3.  Port reassignment: on a new registry, upserting the project
    [/h/a/proj] on port 4096 and then on port 4097 leaves one backend, on
    port 4097; port 4096 misses and port 4097 gives the slug [proj]. *)
Theorem port_reassignment (now1 now2 staleAfter : Z) :
  Len (run staleAfter (reassignment_calls now1 now2)) = 1%nat
  ∧ (∃ b, All (run staleAfter (reassignment_calls now1 now2)) = [b]
          ∧ Port b = 4097)
  ∧ LookupByPort (run staleAfter (reassignment_calls now1 now2)) 4096
    = Returns None
  ∧ (∃ b, LookupByPort (run staleAfter (reassignment_calls now1 now2)) 4097
          = Returns (Some b)
          ∧ Slug b = "proj").
Proof.
  set (r := run staleAfter (reassignment_calls now1 now2)).
  assert (Hr : r =
    {| backends :=
         {[ "proj" := {| Port := 4097; ProjectName := "proj";
                         ProjectPath := "/h/a/proj"; Slug := "proj";
                         Version := "1"; LastSeen := now2 |} ]};
       byPort := {[ 4097 := "proj" ]}; staleAfter := staleAfter |}).
  { subst r. vm_compute. reflexivity. }
  rewrite Hr. split; [|split; [|split]].
  - reflexivity.
  - eexists. split;
      [unfold All; simpl; by rewrite map_to_list_singleton|reflexivity].
  - reflexivity.
  - eexists. split; reflexivity.
Qed.
End registry_properties.

(** C4.  [Prune] removes exactly the backends whose age [now - LastSeen]
    exceeds [staleAfter]: the others stay as they were, each removed one
    loses its entry in [backends] and the entry of its port in [byPort],
    no other port is touched, the returned list holds exactly the removed
    slugs, each once, and no backend older than [staleAfter] is left.
    When every entry of [byPort] names the backend on that port, none names
    a removed slug afterwards. *)
Theorem Prune_removes_exactly_stale now r :
  (∀ s, backends (Prune now r).1 !! s =
        match backends r !! s with
        | Some b => if stale now (staleAfter r) b then None else Some b
        | None => None
        end)
  ∧ (∀ s b, backends r !! s = Some b → stale now (staleAfter r) b = true →
            byPort (Prune now r).1 !! Port b = None)
  ∧ (∀ p, (∀ s b, backends r !! s = Some b →
                  stale now (staleAfter r) b = true → Port b ≠ p) →
          byPort (Prune now r).1 !! p = byPort r !! p)
  ∧ (∀ s, s ∈ (Prune now r).2 ↔
          ∃ b, backends r !! s = Some b ∧ stale now (staleAfter r) b = true)
  ∧ NoDup (Prune now r).2
  ∧ staleAfter (Prune now r).1 = staleAfter r
  ∧ (∀ s b, backends (Prune now r).1 !! s = Some b →
            ¬ (now - LastSeen b > staleAfter (Prune now r).1))
  ∧ ((∀ p s, byPort r !! p = Some s →
             ∃ b, backends r !! s = Some b ∧ Port b = p) →
     ∀ p s, byPort (Prune now r).1 !! p = Some s →
            is_Some (backends (Prune now r).1 !! s)).
Proof.
  destruct (Prune_indices now r) as (Hbk & Hp & Hd).
  destruct (Prune_fold now (map_to_list (backends r)) (r, []))
    as (Hst & _ & _ & Hr). simpl in Hst, Hr. fold (Prune now r) in Hst, Hr.
  set (d := dead now (staleAfter r) (map_to_list (backends r))) in *.
  assert (Hd1 : ∀ s, s ∈ d.*1 ↔
            ∃ b, backends r !! s = Some b ∧ stale now (staleAfter r) b = true).
  { intros s. rewrite list_elem_of_fmap. split.
    - intros ([s' b] & -> & Hin). exists b. by apply Hd.
    - intros (b & Hin). exists (s, b). split; [done|]. by apply Hd. }
  assert (Hdead : ∀ s b, backends r !! s = Some b →
            stale now (staleAfter r) b = true →
            byPort (Prune now r).1 !! Port b = None).
  { intros s b Hs Hstale. rewrite Hp. rewrite decide_True; [done|].
    apply list_elem_of_fmap. exists b. split; [done|].
    apply list_elem_of_fmap. exists (s, b). split; [done|]. by apply Hd. }
  split; [done|]. split; [|split; [|split; [|split; [|split; [|split]]]]].
  - intros s b Hs Hstale. rewrite Hp. rewrite decide_True; [done|].
    apply list_elem_of_fmap. exists b. split; [done|].
    apply list_elem_of_fmap. exists (s, b). split; [done|]. by apply Hd.
  - intros p Hfree. rewrite Hp. rewrite decide_False; [done|].
    intros (b & -> & ([s b'] & -> & Hin)%list_elem_of_fmap)%list_elem_of_fmap.
    apply Hd in Hin as [Hs Hstale]. by eapply Hfree.
  - intros s. rewrite Hr. simpl. apply Hd1.
  - rewrite Hr. simpl. subst d. unfold dead.
    apply NoDup_fmap_fst.
    + intros s b1 b2 [_ Hin1]%list_elem_of_filter [_ Hin2]%list_elem_of_filter.
      apply elem_of_map_to_list in Hin1, Hin2. congruence.
    + apply NoDup_filter, NoDup_map_to_list.
  - done.
  - intros s b. rewrite Hbk, Hst.
    destruct (backends r !! s) as [b'|]; [|done].
    destruct (stale now (staleAfter r) b') eqn:Hstale; [done|].
    intros [= ->]. unfold stale in Hstale.
    apply bool_decide_eq_false in Hstale. lia.
  - intros Hports p s Hps.
    assert (Hpre : byPort r !! p = Some s).
    { rewrite Hp in Hps. by case_decide. }
    destruct (Hports _ _ Hpre) as (b & Hs & <-).
    rewrite Hbk, Hs.
    destruct (stale now (staleAfter r) b) eqn:Hstale; [|by eexists].
    rewrite (Hdead _ _ Hs Hstale) in Hps. done.
Qed.

(** ** Router *)

Lemma take_while_app p l rest :
  Forall (λ c, p c = true) l →
  (∀ c, head rest = Some c → p c = false) →
  take_while p (l ++ rest) = l ∧ drop_while p (l ++ rest) = rest.
Proof.
  intros Hl Hrest. induction Hl as [|c l Hc _ IH]; simpl.
  - destruct rest as [|c rest]; simpl; [done|].
    by rewrite (Hrest c eq_refl).
  - rewrite Hc. destruct IH as [-> ->]. done.
Qed.

Lemma slugFromPath_segment (s t : string) :
  slug_key s →
  t = EmptyString ∨ (∃ t', t = "/" +:+ t') →
  proxy.slugFromPath ("/" +:+ s +:+ t) =
    (s, if bool_decide (t = EmptyString) then "/" else t).
Proof.
  intros [Hne Hchars] Ht. unfold proxy.slugFromPath.
  rewrite !bytes_app. simpl.
  assert (TrimPrefix ("/"%char :: bytes s ++ bytes t) ["/"%char]
          = bytes s ++ bytes t) as -> by reflexivity.
  assert (Hseg : Forall (λ c, negb (Ascii.eqb c "/") = true) (bytes s)).
  { eapply Forall_impl; [exact Hchars|]. intros c Hc.
    apply slug_char_facts in Hc as (_ & _ & Hsep).
    unfold is_separator in Hsep. by rewrite Hsep. }
  assert (Hstop : ∀ c, head (bytes t) = Some c →
                       negb (Ascii.eqb c "/") = false).
  { intros c Hc. destruct Ht as [->|[t' ->]]; [done|].
    simpl in Hc. by injection Hc as <-. }
  destruct (take_while_app _ _ _ Hseg Hstop) as [Htake Hdrop].
  unfold SplitN2. rewrite Htake, Hdrop.
  destruct (bytes s ++ bytes t) as [|c u] eqn:Hst.
  { apply app_eq_nil in Hst as [Hs _]. destruct Hne. by destruct s. }
  rewrite String.string_of_list_ascii_of_string.
  destruct Ht as [->|[t' ->]]; simpl; [done|].
  by rewrite String.string_of_list_ascii_of_string.
Qed.

Section router.
Context `{UnicodeTables}.

Lemma ServeHTTP_host rt r b :
  proxy.slugFromHost rt (proxy.Host r) ≠ EmptyString →
  Lookup (proxy.reg rt) (proxy.slugFromHost rt (proxy.Host r)) = Some b →
  proxy.ServeHTTP rt r = proxy.proxyTo b r EmptyString.
Proof.
  intros Hne Hb. unfold proxy.ServeHTTP.
  by rewrite (bool_decide_eq_true_2 _ Hne), Hb.
Qed.

Lemma ServeHTTP_not_host rt r :
  host_unmatched rt r →
  proxy.ServeHTTP rt r =
    let '(slug, remainder) := proxy.slugFromPath (proxy.Path r) in
    match (if bool_decide (slug ≠ EmptyString)
           then Lookup (proxy.reg rt) slug else None) with
    | Some backend => proxy.proxyTo backend r remainder
    | None =>
        if bool_decide (proxy.Path r = "/api/backends") then
          proxy.Respond (proxy.handleAPIBackends rt r)
        else if bool_decide (proxy.Path r = "/api/health") then
          proxy.Respond (proxy.handleAPIHealth rt r)
        else if bool_decide (proxy.Path r = "/api/resolve") then
          proxy.Respond (proxy.handleAPIResolve rt r)
        else proxy.Respond (proxy.handleDashboard rt r)
    end.
Proof.
  intros Hhost. unfold proxy.ServeHTTP.
  destruct Hhost as [Heq|Hmiss].
  - rewrite bool_decide_eq_false_2; [done|]. by intros Hne.
  - case_bool_decide; [by rewrite Hmiss|done].
Qed.

Lemma ServeHTTP_path rt r b :
  host_unmatched rt r →
  (proxy.slugFromPath (proxy.Path r)).1 ≠ EmptyString →
  Lookup (proxy.reg rt) (proxy.slugFromPath (proxy.Path r)).1 = Some b →
  proxy.ServeHTTP rt r =
    proxy.proxyTo b r (proxy.slugFromPath (proxy.Path r)).2.
Proof.
  intros Hhost Hne Hb. rewrite ServeHTTP_not_host by done.
  destruct (proxy.slugFromPath (proxy.Path r)) as [slug remainder].
  simpl in *. by rewrite (bool_decide_eq_true_2 _ Hne), Hb.
Qed.

Lemma ServeHTTP_fallthrough rt r :
  host_unmatched rt r → path_unmatched rt r →
  proxy.ServeHTTP rt r =
    proxy.Respond
      (if bool_decide (proxy.Path r = "/api/backends") then
         proxy.handleAPIBackends rt r
       else if bool_decide (proxy.Path r = "/api/health") then
         proxy.handleAPIHealth rt r
       else if bool_decide (proxy.Path r = "/api/resolve") then
         proxy.handleAPIResolve rt r
       else proxy.handleDashboard rt r).
Proof.
  intros Hhost Hpath. rewrite ServeHTTP_not_host by done.
  unfold path_unmatched in Hpath.
  destruct (proxy.slugFromPath (proxy.Path r)) as [slug remainder].
  simpl in *.
  assert ((if bool_decide (slug ≠ EmptyString)
           then Lookup (proxy.reg rt) slug else None) = None) as ->.
  { destruct Hpath as [->|Hmiss]; [done|]. by case_bool_decide. }
  by repeat case_bool_decide.
Qed.

(** C6, amended.  Path routing strips exactly the first segment: for a
    registered slug [s], a request the host routing does not take, and a
    suffix [t] that is empty or starts with a slash, the request with path
    ["/" + s + t] is handed to [proxyTo] for the backend of [s] with [t]
    (or ["/"] when [t] is empty) as the path override, and, the port of the
    backend not being negative, is forwarded to that backend with exactly
    this path. *)
Theorem path_routing_strips_first_segment rt r s t b :
  reachable (proxy.reg rt) →
  Lookup (proxy.reg rt) s = Some b →
  host_unmatched rt r →
  proxy.Path r = "/" +:+ s +:+ t →
  t = EmptyString ∨ (∃ t', t = "/" +:+ t') →
  proxy.ServeHTTP rt r = proxy.proxyTo b r (stripped t)
  ∧ (0 ≤ Port b →
     proxy.ServeHTTP rt r =
       proxy.Forward ("127.0.0.1:" +:+ FormatInt (Port b)) (stripped t)).
Proof.
  intros Hreach Hb Hhost Hpath Ht. set (outPath := stripped t).
  destruct (reachable_I1_I4 _ Hreach) as (_ & _ & Hkeys).
  pose proof (Hkeys _ _ Hb) as Hkey.
  pose proof (slugFromPath_segment s t Hkey Ht) as Hseg.
  rewrite <- Hpath in Hseg. fold (stripped t) in Hseg. fold outPath in Hseg.
  assert (Hserve : proxy.ServeHTTP rt r = proxy.proxyTo b r outPath).
  { rewrite (ServeHTTP_path rt r b); rewrite ?Hseg; try done.
    simpl. apply Hkey. }
  split; [done|]. intros Hport. rewrite Hserve. unfold proxy.proxyTo.
  rewrite bool_decide_eq_false_2 by lia.
  rewrite bool_decide_eq_true_2; [done|].
  subst outPath. unfold stripped. case_bool_decide; [done|].
  destruct Ht as [->|[t' ->]]; done.
Qed.

(** C7.  Classification goes by precedence: a host that names a
    registered slug is proxied with the path untouched; else a first path
    segment that is a registered slug is proxied with the rest of the path,
    whatever the full path is; else the three exact API paths are served;
    else the dashboard.  So a registered slug [api] takes the requests for
    [/api/backends], [/api/health] and [/api/resolve]. *)
Theorem ServeHTTP_precedence rt r :
  (∀ b, proxy.slugFromHost rt (proxy.Host r) ≠ EmptyString →
        Lookup (proxy.reg rt) (proxy.slugFromHost rt (proxy.Host r)) = Some b →
        proxy.ServeHTTP rt r = proxy.proxyTo b r EmptyString)
  ∧ (host_unmatched rt r →
     ∀ b, (proxy.slugFromPath (proxy.Path r)).1 ≠ EmptyString →
          Lookup (proxy.reg rt) (proxy.slugFromPath (proxy.Path r)).1 = Some b →
          proxy.ServeHTTP rt r =
            proxy.proxyTo b r (proxy.slugFromPath (proxy.Path r)).2)
  ∧ (host_unmatched rt r → path_unmatched rt r →
     proxy.ServeHTTP rt r =
       proxy.Respond
         (if bool_decide (proxy.Path r = "/api/backends") then
            proxy.handleAPIBackends rt r
          else if bool_decide (proxy.Path r = "/api/health") then
            proxy.handleAPIHealth rt r
          else if bool_decide (proxy.Path r = "/api/resolve") then
            proxy.handleAPIResolve rt r
          else proxy.handleDashboard rt r))
  ∧ (host_unmatched rt r →
     ∀ b endpoint,
       Lookup (proxy.reg rt) "api" = Some b →
       endpoint ∈ ["backends"; "health"; "resolve"] →
       proxy.Path r = "/api/" +:+ endpoint →
       proxy.ServeHTTP rt r = proxy.proxyTo b r ("/" +:+ endpoint)).
Proof.
  split; [|split; [|split]].
  - intros b. apply ServeHTTP_host.
  - intros Hhost b. by apply ServeHTTP_path.
  - apply ServeHTTP_fallthrough.
  - intros Hhost b endpoint Hb Hin Hpath.
    assert (Hseg : proxy.slugFromPath (proxy.Path r)
                   = ("api", "/" +:+ endpoint)).
    { rewrite Hpath. repeat (apply elem_of_cons in Hin as [->|Hin]; [done|]).
      by apply elem_of_nil in Hin. }
    rewrite (ServeHTTP_path rt r b); rewrite ?Hseg; done.
Qed.

(** C8, amended.  A request for [/api/resolve] that no routing takes is
    answered by [handleAPIResolve]: 405 for a method other than GET; for
    GET, 400 with the message of [missing_parameter] when neither [path]
    nor [name] is present, and also when each one present has an empty
    value; 404 with the JSON object [{detail, error: "not_found", query}]
    when a parameter has a non-empty value and nothing resolves, [query]
    being the path if it is non-empty and the name otherwise. *)
Theorem handleAPIResolve_statuses rt r :
  (host_unmatched rt r → path_unmatched rt r →
   proxy.Path r = "/api/resolve" →
   proxy.ServeHTTP rt r = proxy.Respond (proxy.handleAPIResolve rt r))
  ∧ (proxy.Method r ≠ "GET" →
     proxy.handleAPIResolve rt r = proxy.http_Error "method not allowed" 405)
  ∧ (proxy.Method r = "GET" →
     proxy.Query r !! "path" = None → proxy.Query r !! "name" = None →
     proxy.handleAPIResolve rt r =
       proxy.http_Error proxy.missing_parameter 400)
  ∧ (proxy.Method r = "GET" →
     proxy.Get (proxy.Query r) "path" = EmptyString →
     proxy.Get (proxy.Query r) "name" = EmptyString →
     proxy.handleAPIResolve rt r =
       proxy.http_Error proxy.missing_parameter 400)
  ∧ (proxy.Method r = "GET" →
     ∀ query,
       (proxy.Get (proxy.Query r) "path" = query
        ∧ query ≠ EmptyString
        ∧ LookupByPath (proxy.reg rt) query = None)
       ∨ (proxy.Get (proxy.Query r) "path" = EmptyString
          ∧ proxy.Get (proxy.Query r) "name" = query
          ∧ query ≠ EmptyString
          ∧ Lookup (proxy.reg rt) (Slugify query) = None) →
       proxy.handleAPIResolve rt r =
         {| proxy.StatusCode := 404;
            proxy.ContentType := "application/json";
            proxy.Body := proxy.JObject
              [ ("detail", proxy.JString "no backend found for this project");
                ("error", proxy.JString "not_found");
                ("query", proxy.JString query) ] |}).
Proof.
  split; [|split; [|split; [|split]]].
  - intros Hhost Hpath Hp. rewrite ServeHTTP_fallthrough by done.
    rewrite Hp. done.
  - intros Hm. unfold proxy.handleAPIResolve.
    by rewrite (bool_decide_eq_true_2 _ Hm).
  - intros Hm Hp Hn. unfold proxy.handleAPIResolve, proxy.Get.
    rewrite bool_decide_eq_false_2 by (by intros []).
    by rewrite Hp, Hn.
  - intros Hm Hp Hn. unfold proxy.handleAPIResolve.
    rewrite bool_decide_eq_false_2 by (by intros []).
    by rewrite Hp, Hn.
  - intros Hm query Hq. unfold proxy.handleAPIResolve.
    rewrite bool_decide_eq_false_2 by (by intros []).
    destruct Hq as [(Hp & Hne & Hmiss)|(Hp & Hn & Hne & Hmiss)].
    + rewrite Hp. rewrite (bool_decide_eq_false_2 (query = EmptyString)) by done.
      simpl. rewrite (bool_decide_eq_true_2 _ Hne), Hmiss. done.
    + rewrite Hp, Hn.
      rewrite (bool_decide_eq_false_2 (query = EmptyString)) by done.
      simpl. rewrite Hmiss. done.
Qed.
End router.

(** ** Advertiser *)

Lemma Sync_remove_keep cur st l :
  (∀ e, e ∈ l → e.1 ∈ cur) →
  foldl (discovery.Sync_remove cur) st l = st.
Proof.
  revert st. induction l as [|[slug srv] l IH]; intros st Hl; simpl; [done|].
  assert (slug ∈ cur) as Hin by (apply (Hl (slug, srv)); left).
  rewrite bool_decide_eq_false_2 by (by intros Hn).
  apply IH. intros e He. apply Hl. by right.
Qed.

Lemma Sync_remove_servers cur l st s :
  discovery.servers (foldl (discovery.Sync_remove cur) st l).1 !! s =
    if bool_decide (s ∈ l.*1 ∧ s ∉ cur) then None
    else discovery.servers st.1 !! s.
Proof.
  revert st. induction l as [|[slug srv] l IH]; intros st.
  - simpl. done.
  - change (foldl (discovery.Sync_remove cur) st ((slug, srv) :: l))
      with (foldl (discovery.Sync_remove cur)
              (discovery.Sync_remove cur st (slug, srv)) l).
    rewrite IH. rewrite fmap_cons. cbn [fst].
    assert (Hcons : ∀ P : Prop, (s ∈ slug :: l.*1 ∧ P)
                      ↔ (s = slug ∧ P) ∨ (s ∈ l.*1 ∧ P)).
    { intros P. rewrite elem_of_cons. tauto. }
    unfold discovery.Sync_remove.
    destruct (decide (slug ∈ cur)) as [Hc|Hc].
    + rewrite (bool_decide_eq_false_2 (slug ∉ cur)) by (by intros Hn).
      apply (f_equal (λ c : bool, if c then None else _)).
      apply bool_decide_ext. rewrite Hcons.
      split; [tauto|]. intros [[-> Hn]|Hs]; tauto.
    + rewrite (bool_decide_eq_true_2 (slug ∉ cur)) by done. cbn [fst snd discovery.servers].
      destruct (decide (s = slug)) as [->|Hne].
      * rewrite lookup_delete_eq.
        rewrite (bool_decide_eq_true_2 (slug ∈ slug :: _ ∧ _));
          [|split; [left|done]].
        by case_bool_decide.
      * rewrite lookup_delete_ne by done.
        apply (f_equal (λ c : bool, if c then None else _)).
        apply bool_decide_ext. rewrite Hcons. tauto.
Qed.

Lemma Sync_add_step st b :
  discovery.servers st.1 !! Slug b = None →
  (∃ srv, discovery.servers (discovery.Sync_add st b).1
          = <[Slug b := srv]> (discovery.servers st.1)
          ∧ discovery.script (discovery.Sync_add st b).2
            = tail (discovery.script st.2)
          ∧ head (discovery.script st.2) ≠ Some false)
  ∨ (discovery.servers (discovery.Sync_add st b).1 = discovery.servers st.1
     ∧ discovery.script (discovery.Sync_add st b).2
       = tail (discovery.script st.2)
     ∧ head (discovery.script st.2) = Some false).
Proof.
  intros Hnone. unfold discovery.Sync_add. rewrite Hnone.
  destruct st as [a net]. unfold discovery.register, discovery.RegisterProxy.
  simpl. destruct (discovery.script net) as [|[] rest]; simpl; eauto.
Qed.

Lemma Sync_add_keys (cur : gset string) st l :
  (∀ s, is_Some (discovery.servers st.1 !! s) → s ∈ cur) →
  (∀ b, b ∈ l → Slug b ∈ cur) →
  ∀ s, is_Some (discovery.servers (foldl discovery.Sync_add st l).1 !! s) →
       s ∈ cur.
Proof.
  revert st. induction l as [|b l IH]; intros st Hst Hl; simpl; [done|].
  apply IH; [|intros b' Hb'; apply Hl; by right].
  intros s. destruct (discovery.servers st.1 !! Slug b) as [srv|] eqn:Hb.
  { unfold discovery.Sync_add. rewrite Hb. apply Hst. }
  destruct (Sync_add_step st b Hb) as [(srv & -> & _)|(-> & _)]; [|apply Hst].
  intros [Heq|Hs]%lookup_insert_is_Some.
  - subst s. apply Hl. left.
  - apply Hst. tauto.
Qed.

Lemma Sync_add_keep st l :
  (∀ b, b ∈ l → is_Some (discovery.servers st.1 !! Slug b)) →
  foldl discovery.Sync_add st l = st.
Proof.
  revert st. induction l as [|b l IH]; intros st Hl; simpl; [done|].
  destruct (Hl b) as [srv Hb]; [left|].
  assert (discovery.Sync_add st b = st) as ->.
  { unfold discovery.Sync_add. by rewrite Hb. }
  apply IH. intros b' Hb'. apply Hl. by right.
Qed.

Lemma Sync_add_monotone st l s :
  is_Some (discovery.servers st.1 !! s) →
  is_Some (discovery.servers (foldl discovery.Sync_add st l).1 !! s).
Proof.
  revert st. induction l as [|b l IH]; intros st Hs; simpl; [done|].
  apply IH. destruct (discovery.servers st.1 !! Slug b) as [srv|] eqn:Hb.
  { unfold discovery.Sync_add. by rewrite Hb. }
  destruct (Sync_add_step st b Hb) as [(srv & -> & _)|(-> & _)]; [|done].
  apply lookup_insert_is_Some. destruct (decide (Slug b = s)); tauto.
Qed.

Lemma Sync_add_all st l :
  Forall (λ ok, ok = true) (discovery.script st.2) →
  ∀ b, b ∈ l →
       is_Some (discovery.servers (foldl discovery.Sync_add st l).1 !! Slug b).
Proof.
  revert st. induction l as [|b l IH]; intros st Hok b' Hb'; simpl.
  { by apply elem_of_nil in Hb'. }
  assert (Hok' : Forall (λ ok, ok = true)
                   (discovery.script (discovery.Sync_add st b).2)
                 ∧ is_Some (discovery.servers (discovery.Sync_add st b).1
                              !! Slug b)).
  { destruct (discovery.servers st.1 !! Slug b) as [srv|] eqn:Hb.
    { unfold discovery.Sync_add. rewrite Hb. split; [done|]. by rewrite Hb. }
    destruct (Sync_add_step st b Hb) as [(srv & -> & -> & _)|(_ & _ & Hf)].
    - split; [|by rewrite lookup_insert_eq].
      destruct (discovery.script st.2); [done|]. by inversion Hok.
    - destruct (discovery.script st.2) as [|ok rest]; [done|].
      inversion Hok; simplify_eq. }
  destruct Hok' as [Hscript Hsome].
  apply elem_of_cons in Hb' as [->|Hb'].
  - by apply Sync_add_monotone.
  - by apply IH.
Qed.

Lemma Sync_remove_script cur st l :
  discovery.script (foldl (discovery.Sync_remove cur) st l).2
  = discovery.script st.2.
Proof.
  revert st. induction l as [|[slug srv] l IH]; intros st; simpl; [done|].
  rewrite IH. unfold discovery.Sync_remove. by case_bool_decide.
Qed.

(** C9, amended.  [Sync] reconciles: when every backend of the snapshot is
    advertised after a call, which is so when no registration of that call
    failed, a second call with the same snapshot changes nothing: the same
    handles, no shutdown, no registration attempt.  (A slug whose
    registration failed is not in the map and is tried again.) *)
Theorem Sync_twice backends st :
  (all_advertised backends (discovery.Sync backends st).1 →
   discovery.Sync backends (discovery.Sync backends st)
   = discovery.Sync backends st)
  ∧ (Forall (λ ok, ok = true) (discovery.script st.2) →
     all_advertised backends (discovery.Sync backends st).1).
Proof.
  split.
  - intros Hall. set (st1 := discovery.Sync backends st) in *.
    unfold discovery.Sync at 1.
    set (cur := list_to_set (Slug <$> backends) : gset string).
    assert (Hkeys : ∀ s, is_Some (discovery.servers st1.1 !! s) → s ∈ cur).
    { subst st1. unfold discovery.Sync. fold cur.
      apply Sync_add_keys.
      - intros s. rewrite Sync_remove_servers.
        case_bool_decide as Hcase; [by intros [? ?]|].
        intros [srv Hs]. apply dec_stable. intros Hn. apply Hcase.
        split; [|done]. apply list_elem_of_fmap. exists (s, srv).
        split; [done|]. by apply elem_of_map_to_list.
      - intros b Hb. subst cur. apply elem_of_list_to_set.
        apply list_elem_of_fmap. eauto. }
    rewrite Sync_remove_keep.
    + by apply Sync_add_keep.
    + intros [s srv] Hin. apply elem_of_map_to_list in Hin.
      apply Hkeys. simpl. eauto.
  - intros Hok. unfold all_advertised, discovery.Sync.
    apply Sync_add_all. by rewrite Sync_remove_script.
Qed.

(** ** Instances *)

(** The collision of [/b/proj] on port 4097 with [/a/proj] on port 4096. *)
Lemma Upsert_collision_witness :
  (backends (proxy.reg proj_router) !! "proj" = Some proj_backend
   ∧ ProjectPath proj_backend ≠ "/b/proj" ∧ Port proj_backend ≠ 4097)
  ∧ backends (Upsert (H := caseless_tables) 1 4097 "proj" "/b/proj" "1"
                (proxy.reg proj_router)).1 !! "proj-4097" =
      Some {| Port := 4097; ProjectName := "proj"; ProjectPath := "/b/proj";
              Slug := "proj-4097"; Version := "1"; LastSeen := 1 |}
  ∧ byPort (Upsert (H := caseless_tables) 1 4097 "proj" "/b/proj" "1"
              (proxy.reg proj_router)).1 !! 4097 = Some "proj-4097"
  ∧ (Upsert (H := caseless_tables) 1 4097 "proj" "/b/proj" "1"
       (proxy.reg proj_router)).2 = true
  ∧ backends (Upsert (H := caseless_tables) 1 4097 "proj" "/b/proj" "1"
                (proxy.reg proj_router)).1 !! "proj" = Some proj_backend.
Proof.
  assert (Hex : backends (proxy.reg proj_router)
                  !! Slugify (H := caseless_tables) "/b/proj"
                = Some proj_backend) by (vm_compute; reflexivity).
  assert (Hpath : ProjectPath proj_backend ≠ "/b/proj") by discriminate.
  assert (Hport : Port proj_backend ≠ 4097) by discriminate.
  split; [split; [exact Hex|split; [exact Hpath|exact Hport]]|].
  exact (Upsert_collision (H := caseless_tables) 1 4097 "proj" "/b/proj" "1"
           (proxy.reg proj_router) proj_backend Hex Hpath Hport).
Defined.

(** [Prune] at 100 with [staleAfter = 50] on a backend last seen at 0: its
    port leaves [byPort]. *)
Lemma Prune_witness :
  (backends mixed_registry !! "old" = Some old_backend
   ∧ stale 100 (staleAfter mixed_registry) old_backend = true)
  ∧ byPort (Prune 100 mixed_registry).1 !! 4096 = None.
Proof.
  assert (Hs : backends mixed_registry !! "old" = Some old_backend)
    by (vm_compute; reflexivity).
  assert (Hstale : stale 100 (staleAfter mixed_registry) old_backend = true)
    by (vm_compute; reflexivity).
  split; [by split|].
  exact (proj1 (proj2 (Prune_removes_exactly_stale 100 mixed_registry))
           "old" old_backend Hs Hstale).
Defined.

(** The request [GET /proj/api/v1/health] reaches the backend of [proj]
    with the path [/api/v1/health]. *)
Lemma path_routing_witness :
  (reachable (H := caseless_tables) (proxy.reg proj_router)
   ∧ Lookup (proxy.reg proj_router) "proj" = Some proj_backend
   ∧ host_unmatched proj_router health_request
   ∧ proxy.Path health_request = "/" +:+ "proj" +:+ "/api/v1/health"
   ∧ 0 ≤ Port proj_backend)
  ∧ proxy.ServeHTTP (H := caseless_tables) proj_router health_request
    = proxy.Forward "127.0.0.1:4096" "/api/v1/health".
Proof.
  assert (Hreach : reachable (H := caseless_tables) (proxy.reg proj_router))
    by (by exists 30, [CallUpsert 0 4096 "proj" "/a/proj" "1"]).
  assert (Hb : Lookup (proxy.reg proj_router) "proj" = Some proj_backend)
    by (vm_compute; reflexivity).
  assert (Hhost : host_unmatched proj_router health_request)
    by (left; reflexivity).
  assert (Hpath : proxy.Path health_request
                  = "/" +:+ "proj" +:+ "/api/v1/health") by reflexivity.
  assert (Hport : 0 ≤ Port proj_backend) by (simpl; lia).
  split; [by repeat split|].
  exact (proj2 (path_routing_strips_first_segment (H := caseless_tables)
                  proj_router health_request "proj" "/api/v1/health"
                  proj_backend Hreach Hb Hhost Hpath
                  (or_intror (ex_intro _ "api/v1/health" eq_refl)))
               Hport).
Defined.

(** C6 as stated fails.  With [proj] registered, the path [/projx] is
    ["/" + "proj" + "x"], yet its first segment is [projx]: the request
    gets the dashboard and is not forwarded with the path [x].  And a
    backend upserted with the port -1 is never forwarded to: the target
    URL does not parse and [proxyTo] answers 500. *)
Lemma path_routing_suffix_counterexample :
  (reachable (H := caseless_tables) (proxy.reg proj_router)
   ∧ Lookup (proxy.reg proj_router) "proj" = Some proj_backend
   ∧ host_unmatched proj_router suffix_request
   ∧ proxy.Path suffix_request = "/" +:+ "proj" +:+ "x"
   ∧ proxy.ServeHTTP (H := caseless_tables) proj_router suffix_request
     = proxy.Respond (proxy.handleDashboard proj_router suffix_request)
   ∧ proxy.ServeHTTP (H := caseless_tables) proj_router suffix_request
     ≠ proxy.Forward "127.0.0.1:4096" "x")
  ∧ (reachable (H := caseless_tables) (proxy.reg negative_port_router)
     ∧ is_Some (Lookup (proxy.reg negative_port_router) "proj")
     ∧ host_unmatched negative_port_router negative_port_request
     ∧ proxy.Path negative_port_request = "/" +:+ "proj" +:+ "/x"
     ∧ proxy.ServeHTTP (H := caseless_tables) negative_port_router
         negative_port_request
       = proxy.Respond (proxy.http_Error "internal error" 500)).
Proof.
  assert (Hserve :
    proxy.ServeHTTP (H := caseless_tables) proj_router suffix_request
    = proxy.Respond (proxy.handleDashboard proj_router suffix_request))
    by (vm_compute; reflexivity).
  split.
  - split; [by exists 30, [CallUpsert 0 4096 "proj" "/a/proj" "1"]|].
    split; [vm_compute; reflexivity|].
    split; [left; reflexivity|].
    split; [reflexivity|].
    split; [exact Hserve|]. rewrite Hserve. discriminate.
  - split; [by exists 30, [CallUpsert 0 (-1) "proj" "/a/proj" "1"]|].
    split; [vm_compute; eauto|].
    split; [left; reflexivity|].
    split; [reflexivity|]. vm_compute; reflexivity.
Qed.

(** With a slug [api] registered, [GET /api/backends] goes to its backend
    with the path [/backends]. *)
Lemma api_shadow_witness :
  (host_unmatched api_router backends_request
   ∧ Lookup (proxy.reg api_router) "api" = Some api_backend)
  ∧ proxy.ServeHTTP (H := caseless_tables) api_router backends_request
    = proxy.Forward "127.0.0.1:4096" "/backends".
Proof.
  assert (Hhost : host_unmatched api_router backends_request)
    by (left; reflexivity).
  assert (Hb : Lookup (proxy.reg api_router) "api" = Some api_backend)
    by (vm_compute; reflexivity).
  split; [by split|].
  exact (proj2 (proj2 (proj2 (ServeHTTP_precedence (H := caseless_tables)
                                api_router backends_request)))
           Hhost api_backend "backends" Hb (list_elem_of_here _ _) eq_refl).
Defined.

(** [GET /api/resolve?name=ghost] on an empty registry: 404 with the query
    [ghost]. *)
Lemma resolve_not_found_witness :
  (proxy.Method ghost_request = "GET"
   ∧ proxy.Get (proxy.Query ghost_request) "path" = EmptyString
   ∧ proxy.Get (proxy.Query ghost_request) "name" = "ghost"
   ∧ Lookup (proxy.reg empty_router) (Slugify (H := caseless_tables) "ghost")
     = None)
  ∧ proxy.handleAPIResolve (H := caseless_tables) empty_router ghost_request =
      {| proxy.StatusCode := 404;
         proxy.ContentType := "application/json";
         proxy.Body := proxy.JObject
           [ ("detail", proxy.JString "no backend found for this project");
             ("error", proxy.JString "not_found");
             ("query", proxy.JString "ghost") ] |}.
Proof.
  assert (Hm : proxy.Method ghost_request = "GET") by reflexivity.
  assert (Hp : proxy.Get (proxy.Query ghost_request) "path" = EmptyString)
    by (vm_compute; reflexivity).
  assert (Hn : proxy.Get (proxy.Query ghost_request) "name" = "ghost")
    by (vm_compute; reflexivity).
  assert (Hmiss : Lookup (proxy.reg empty_router)
                    (Slugify (H := caseless_tables) "ghost") = None)
    by (vm_compute; reflexivity).
  split; [by repeat split|].
  refine (proj2 (proj2 (proj2 (proj2
            (handleAPIResolve_statuses (H := caseless_tables)
               empty_router ghost_request))))
            Hm "ghost" (or_intror (conj Hp (conj Hn (conj _ Hmiss))))).
  discriminate.
Defined.

(** C8 as stated fails.  In [GET /api/resolve?name=] the parameter [name]
    is present, with an empty value, and no backend resolves; the answer
    is 400, not 404. *)
Lemma resolve_empty_value_counterexample :
  is_Some (proxy.Query empty_name_request !! "name")
  ∧ Lookup (proxy.reg empty_router)
      (Slugify (H := caseless_tables)
         (proxy.Get (proxy.Query empty_name_request) "name"))
    = None
  ∧ proxy.ServeHTTP (H := caseless_tables) empty_router empty_name_request
    = proxy.Respond (proxy.http_Error proxy.missing_parameter 400)
  ∧ proxy.StatusCode (proxy.http_Error proxy.missing_parameter 400) ≠ 404.
Proof.
  split; [vm_compute; eauto|].
  split; [vm_compute; reflexivity|].
  split; [vm_compute; reflexivity|]. discriminate.
Qed.

(** Two calls of [Sync] with one backend, on a network that accepts every
    registration. *)
Lemma Sync_twice_witness :
  Forall (λ ok, ok = true) (discovery.script (advertiser []).2)
  ∧ discovery.Sync [proj_backend]
      (discovery.Sync [proj_backend] (advertiser []))
    = discovery.Sync [proj_backend] (advertiser []).
Proof.
  assert (Hok : Forall (λ ok, ok = true)
                  (discovery.script (advertiser []).2)) by constructor.
  split; [exact Hok|].
  exact (proj1 (Sync_twice [proj_backend] (advertiser []))
           (proj2 (Sync_twice [proj_backend] (advertiser [])) Hok)).
Defined.

(** C9 as stated fails.  When the registration of the first call returns
    an error, the map is empty after it, and the second call with the same
    snapshot registers the slug: the two maps differ. *)
Lemma Sync_retry_counterexample :
  discovery.servers (discovery.Sync [proj_backend] (advertiser [false])).1
  = ∅
  ∧ discovery.servers
      (discovery.Sync [proj_backend]
         (discovery.Sync [proj_backend] (advertiser [false]))).1
    = {[ "proj" := 0%nat ]}
  ∧ discovery.servers
      (discovery.Sync [proj_backend]
         (discovery.Sync [proj_backend] (advertiser [false]))).1
    ≠ discovery.servers
        (discovery.Sync [proj_backend] (advertiser [false])).1.
Proof.
  assert (H1 : discovery.servers
                 (discovery.Sync [proj_backend] (advertiser [false])).1 = ∅)
    by (vm_compute; reflexivity).
  assert (H2 : discovery.servers
                 (discovery.Sync [proj_backend]
                    (discovery.Sync [proj_backend] (advertiser [false]))).1
               = {[ "proj" := 0%nat ]}) by (vm_compute; reflexivity).
  split; [exact H1|]. split; [exact H2|].
  rewrite H1, H2. intros Heq.
  apply (f_equal (λ m : gmap string nat, m !! "proj")) in Heq.
  by rewrite lookup_singleton_eq, lookup_empty in Heq.
Qed.

(** * Further properties *)

Lemma bytes_inj (s t : string) : bytes s = bytes t → s = t.
Proof.
  intros Heq. apply (f_equal str) in Heq.
  by rewrite !String.string_of_list_ascii_of_string in Heq.
Qed.

(** ** Registry *)

Lemma I1_I2_I3 r : I1 r → I2 r → I3 r.
Proof.
  intros HI1 [Hlive Hinj]. split.
  - intros s b Hs p. split.
    + intros Hp. eapply Hinj; [exact Hp|]. by apply HI1.
    + intros ->. by apply HI1.
  - intros p s Hp. destruct (Hlive _ _ Hp) as [b Hb]. exists b.
    split; [done|]. eapply Hinj; [|exact Hp]. by apply HI1.
Qed.

Lemma Prune_I2 now r : I1 r → I2 r → I2 (Prune now r).1.
Proof.
  intros HI1 [Hlive Hinj]. destruct (Prune_indices now r) as (Hb & Hp & Hd).
  assert (Hsub : ∀ p s, byPort (Prune now r).1 !! p = Some s →
                        byPort r !! p = Some s).
  { intros p s. rewrite Hp. by case_decide. }
  split.
  - intros p s Hps. pose proof (Hsub _ _ Hps) as Hpre.
    destruct (Hlive _ _ Hpre) as [b Hs]. rewrite Hb, Hs.
    destruct (stale now (staleAfter r) b) eqn:Hstale; [|by eexists].
    assert (p = Port b) as ->.
    { eapply Hinj; [exact Hpre|]. by apply HI1. }
    rewrite Hp in Hps. rewrite decide_True in Hps; [done|].
    apply list_elem_of_fmap. exists b. split; [done|].
    apply list_elem_of_fmap. exists (s, b). split; [done|]. by apply Hd.
  - intros p q s Hps Hqs. eapply Hinj; by apply Hsub.
Qed.

Section guarded.
Context `{UnicodeTables}.

Lemma after_port_check_live port slug r p s :
  I2 r → byPort r !! p = Some s → p ≠ port →
  is_Some (after_port_check port slug r !! s).
Proof.
  intros [Hlive Hinj] Hp Hne. unfold after_port_check.
  destruct (byPort r !! port) as [old|] eqn:Hold; [|by eapply Hlive].
  case_bool_decide; [|by eapply Hlive].
  rewrite lookup_delete_ne; [by eapply Hlive|].
  intros <-. apply Hne. by eapply Hinj.
Qed.

Lemma I2_insert r b1 bp port k rec sa :
  I2 r →
  (∀ p s, bp !! p = Some s → byPort r !! p = Some s) →
  (∀ p s, byPort r !! p = Some s → p ≠ port → is_Some (b1 !! s)) →
  (∀ q, q ≠ port → bp !! q ≠ Some k) →
  I2 {| backends := <[k := rec]> b1; byPort := <[port := k]> bp;
        staleAfter := sa |}.
Proof.
  intros [Hlive Hinj] Hbp Hkeep Hfree. split; simpl.
  - intros p s Hps. apply lookup_insert_Some in Hps as [[<- <-]|[Hne Hps]].
    + rewrite lookup_insert_eq. by eexists.
    + apply lookup_insert_is_Some'. right. eapply Hkeep; [by apply Hbp|done].
  - intros p q s Hps Hqs.
    apply lookup_insert_Some in Hps as [[<- <-]|[Hp Hps]];
      apply lookup_insert_Some in Hqs as [[<- Hk]|[Hq Hqs]]; try done.
    + by destruct (Hfree q).
    + subst s. by destruct (Hfree p).
    + eapply Hinj; by apply Hbp.
Qed.

Lemma Upsert_I2 now port name path version r :
  I1 r → I2 r → ¬ overwrites port path r →
  I2 (Upsert now port name path version r).1.
Proof.
  intros HI1 HI2 Hsafe. pose proof HI2 as [Hlive Hinj].
  pose proof (after_port_check_lookup port (Slugify path) r) as Hsub.
  pose proof (after_port_check_live port (Slugify path) r) as Hkeep.
  destruct (Upsert_cases now port name path version r)
    as [(ex & Hex & Hcond & ->)|[(ex & Hex & Hpath & Hport & ->)|(Hnone & ->)]];
    simpl in *.
  - apply (I2_insert r); [done| |by eauto|].
    + intros p s. case_bool_decide; [|done].
      intros Hs. apply lookup_delete_Some in Hs. tauto.
    + intros q Hq Hqs.
      assert (Hpre : byPort r !! q = Some (Slugify path) ∧
                     (Port ex ≠ port → q ≠ Port ex)).
      { revert Hqs. case_bool_decide as Hne.
        - intros [Hn Hs]%lookup_delete_Some. split; [done|]. by intros _ ->.
        - intros Hs. split; [done|]. by intros ?. }
      destruct Hpre as [Hqs' Hnot].
      assert (q = Port ex).
      { eapply Hinj; [exact Hqs'|]. by apply HI1, Hsub. }
      subst q. destruct (decide (Port ex = port)); [done|]. by apply Hnot.
  - apply (I2_insert r); [done|done|by eauto|].
    intros q Hq Hqs. apply Hsafe. exists ex.
    split; [done|]. split; [done|]. split; [done|]. by eapply Hkeep.
  - apply (I2_insert r); [done|done|by eauto|].
    intros q Hq Hqs. destruct (Hkeep q _ HI2 Hqs Hq) as [b Hb]. congruence.
Qed.

Lemma guarded_invariants r calls :
  I1 r → I2 r → I4 r → no_overwrite r calls →
  I1 (foldl run_call r calls) ∧ I2 (foldl run_call r calls)
  ∧ I3 (foldl run_call r calls) ∧ I4 (foldl run_call r calls).
Proof.
  revert r. induction calls as [|c calls IH]; intros r H1 H2 H4 Hsafe; simpl.
  - auto using I1_I2_I3.
  - destruct Hsafe as [Hc Hrest]. apply IH; [| | |done].
    + destruct c; simpl; auto using Upsert_I1, Prune_I1.
    + destruct c; simpl; auto using Upsert_I2, Prune_I2.
    + destruct c; simpl; auto using Upsert_I4, Prune_I4.
Qed.

Lemma New_invariants staleAfter :
  I1 (New staleAfter) ∧ I2 (New staleAfter) ∧ I4 (New staleAfter).
Proof.
  split; [|split; [split|]].
  - intros s b Hs. simpl in Hs. by rewrite lookup_empty in Hs.
  - intros p s Hp. simpl in Hp. by rewrite lookup_empty in Hp.
  - intros p q s Hp. simpl in Hp. by rewrite lookup_empty in Hp.
  - intros s b Hs. simpl in Hs. by rewrite lookup_empty in Hs.
Qed.

Theorem invariants_without_overwrite staleAfter calls :
  no_overwrite (New staleAfter) calls →
  I1 (run staleAfter calls) ∧ I2 (run staleAfter calls)
  ∧ I3 (run staleAfter calls) ∧ I4 (run staleAfter calls).
Proof.
  destruct (New_invariants staleAfter) as (H1 & H2 & H4).
  by apply guarded_invariants.
Qed.

Theorem LookupByPort_without_overwrite staleAfter calls port :
  no_overwrite (New staleAfter) calls →
  LookupByPort (run staleAfter calls) port = Returns None
  ∨ ∃ b, LookupByPort (run staleAfter calls) port = Returns (Some b)
         ∧ Port b = port
         ∧ Lookup (run staleAfter calls) (Slug b) = Some b.
Proof.
  intros Hsafe. destruct (New_invariants staleAfter) as (H1 & H2 & H4).
  destruct (guarded_invariants _ _ H1 H2 H4 Hsafe) as (_ & _ & [_ H3] & H4').
  fold (run staleAfter calls) in H3, H4'.
  unfold LookupByPort, Lookup.
  destruct (byPort (run staleAfter calls) !! port) as [s|] eqn:Hp;
    [|by left].
  destruct (H3 _ _ Hp) as (b & Hb & Hport). right. exists b.
  rewrite Hb. split; [done|]. split; [done|].
  by rewrite (H4' _ _ Hb).
Qed.

Theorem reachable_backends_indexed r b :
  reachable r → b ∈ All r →
  Lookup r (Slug b) = Some b
  ∧ LookupByPort r (Port b) = Returns (Some b)
  ∧ slug_key (Slug b)
  ∧ (∀ b', b' ∈ All r → Port b' = Port b → b' = b).
Proof.
  intros Hr Hb. destruct (reachable_I1_I4 r Hr) as (H1 & H4 & Hk).
  assert (Hall : ∀ x, x ∈ All r → backends r !! Slug x = Some x).
  { intros x Hx. unfold All in Hx. apply list_elem_of_fmap in Hx
      as ([s x'] & -> & Hin). apply elem_of_map_to_list in Hin. simpl.
    by rewrite (H4 _ _ Hin). }
  pose proof (Hall b Hb) as Hs. unfold Lookup, LookupByPort.
  split; [done|]. split; [by rewrite (H1 _ _ Hs), Hs|].
  split; [by eapply Hk|].
  intros b' Hb' Hport. pose proof (Hall b' Hb') as Hs'.
  pose proof (H1 _ _ Hs) as Hp. pose proof (H1 _ _ Hs') as Hp'.
  rewrite Hport in Hp'. rewrite Hp in Hp'. injection Hp' as Heq.
  rewrite <- Heq in Hs'. congruence.
Qed.

End guarded.

Lemma LookupByPath_find r (path : string) :
  (∃ s b, backends r !! s = Some b ∧ ProjectPath b = path) →
  ∃ i s b, list_find (λ e : string * Backend, ProjectPath e.2 = path)
             (map_to_list (backends r)) = Some (i, (s, b))
           ∧ backends r !! s = Some b ∧ ProjectPath b = path.
Proof.
  intros (s & b & Hs & Hp).
  destruct (list_find (λ e : string * Backend, ProjectPath e.2 = path)
              (map_to_list (backends r))) as [[i [s' b']]|] eqn:Hfind.
  - apply list_find_Some in Hfind as (Hi & Hp' & _).
    exists i, s', b'. split; [done|]. split; [|done].
    apply elem_of_map_to_list. by eapply list_elem_of_lookup_2.
  - apply list_find_None in Hfind.
    destruct (proj1 (Forall_forall _ _) Hfind (s, b)); [|done].
    by apply elem_of_map_to_list.
Qed.

Section upsert.
Context `{UnicodeTables}.

Theorem Upsert_then_lookup now port name path version r :
  (∃ b, LookupByPort (Upsert now port name path version r).1 port
        = Returns (Some b)
        ∧ Port b = port ∧ ProjectName b = name ∧ ProjectPath b = path
        ∧ Version b = version ∧ LastSeen b = now)
  ∧ (∃ b, LookupByPath (Upsert now port name path version r).1 path = Some b
          ∧ ProjectPath b = path)
  ∧ ((Upsert now port name path version r).2 = true →
     ∃ key, (key = Slugify path ∨ key = disambiguated (Slugify path) port)
            ∧ Lookup (Upsert now port name path version r).1 key =
                Some {| Port := port; ProjectName := name;
                        ProjectPath := path; Slug := key;
                        Version := version; LastSeen := now |}).
Proof.
  assert (Hkey : ∃ key slug,
            byPort (Upsert now port name path version r).1 !! port = Some key
            ∧ backends (Upsert now port name path version r).1 !! key =
                Some {| Port := port; ProjectName := name;
                        ProjectPath := path; Slug := slug;
                        Version := version; LastSeen := now |}).
  { destruct (Upsert_cases now port name path version r)
      as [(ex & _ & _ & ->)|[(ex & _ & _ & _ & ->)|(_ & ->)]]; simpl;
      eexists _, _; by rewrite !lookup_insert_eq. }
  destruct Hkey as (key & slug & Hport & Hback).
  split; [|split].
  - eexists. unfold LookupByPort. rewrite Hport, Hback. done.
  - destruct (LookupByPath_find (Upsert now port name path version r).1 path)
      as (i & s & b & Hfind & _ & Hp); [by eauto|].
    exists b. unfold LookupByPath. by rewrite Hfind.
  - destruct (Upsert_cases now port name path version r)
      as [(ex & _ & _ & ->)|[(ex & _ & _ & _ & ->)|(_ & ->)]]; simpl;
      [done| |]; intros _; eexists; (split; [|apply lookup_insert_eq]).
    + by right.
    + by left.
Qed.

Theorem Upsert_refresh_in_place now port name path version r b :
  I1 r →
  backends r !! Slugify path = Some b →
  Port b = port →
  Upsert now port name path version r =
    ({| backends :=
          <[Slugify path := {| Port := port; ProjectName := name;
                               ProjectPath := path; Slug := Slug b;
                               Version := version; LastSeen := now |}]>
            (backends r);
        byPort := byPort r;
        staleAfter := staleAfter r |}, false)
  ∧ Len (Upsert now port name path version r).1 = Len r.
Proof.
  intros HI1 Hb Hport.
  assert (Hown : byPort r !! port = Some (Slugify path)).
  { rewrite <- Hport. by apply HI1. }
  assert (Heq : Upsert now port name path version r =
    ({| backends :=
          <[Slugify path := {| Port := port; ProjectName := name;
                               ProjectPath := path; Slug := Slug b;
                               Version := version; LastSeen := now |}]>
            (backends r);
        byPort := byPort r;
        staleAfter := staleAfter r |}, false)).
  { unfold Upsert. rewrite Hown.
    rewrite (bool_decide_eq_false_2 (Slugify path ≠ Slugify path))
      by (by intros Hne).
    rewrite Hb, (bool_decide_eq_true_2 (Port b = port)) by done.
    rewrite orb_true_r.
    rewrite (bool_decide_eq_false_2 (Port b ≠ port)) by (by intros Hne).
    by rewrite (insert_id (byPort r)). }
  split; [done|]. rewrite Heq. unfold Len. simpl.
  apply map_size_insert_Some. eauto.
Qed.

Theorem Upsert_project_changed now port name path version r old :
  byPort r !! port = Some old →
  old ≠ Slugify path →
  backends r !! Slugify path = None →
  (Upsert now port name path version r).2 = true
  ∧ Lookup (Upsert now port name path version r).1 old = None
  ∧ Lookup (Upsert now port name path version r).1 (Slugify path) =
      Some {| Port := port; ProjectName := name; ProjectPath := path;
              Slug := Slugify path; Version := version; LastSeen := now |}
  ∧ byPort (Upsert now port name path version r).1 !! port
    = Some (Slugify path).
Proof.
  intros Hold Hne Hfree. unfold Upsert, Lookup. rewrite Hold.
  rewrite (bool_decide_eq_true_2 _ Hne).
  rewrite lookup_delete_ne, Hfree by done. simpl.
  rewrite !lookup_insert_eq, lookup_insert_ne, lookup_delete_eq by done.
  done.
Qed.

Theorem Upsert_port_moved now port name path version r b :
  backends r !! Slugify path = Some b →
  ProjectPath b = path →
  Port b ≠ port →
  (Upsert now port name path version r).2 = false
  ∧ LookupByPort (Upsert now port name path version r).1 (Port b)
    = Returns None
  ∧ Lookup (Upsert now port name path version r).1 (Slugify path) =
      Some {| Port := port; ProjectName := name; ProjectPath := path;
              Slug := Slug b; Version := version; LastSeen := now |}
  ∧ byPort (Upsert now port name path version r).1 !! port
    = Some (Slugify path).
Proof.
  intros Hb Hpath Hport.
  assert (Hb1 : after_port_check port (Slugify path) r !! Slugify path
                = Some b).
  { unfold after_port_check. destruct (byPort r !! port) as [old|]; [|done].
    case_bool_decide; [|done]. by rewrite lookup_delete_ne. }
  destruct (Upsert_cases now port name path version r)
    as [(ex & Hex & Hcond & ->)|[(ex & Hex & Hp & Hq & ->)|(Hnone & ->)]];
    simpl in *.
  - rewrite Hb1 in Hex. injection Hex as <-.
    rewrite (bool_decide_eq_true_2 _ Hport).
    unfold LookupByPort, Lookup. simpl.
    rewrite lookup_insert_ne, lookup_delete_eq, !lookup_insert_eq by done.
    done.
  - rewrite Hb1 in Hex. injection Hex as <-. done.
  - congruence.
Qed.
End upsert.

Theorem snapshots_agree r :
  length (All r) = Len r
  ∧ length (Slugs r) = Len r
  ∧ NoDup (Slugs r)
  ∧ (∀ s, s ∈ Slugs r ↔ is_Some (Lookup r s))
  ∧ (∀ b, b ∈ All r ↔ ∃ s, Lookup r s = Some b).
Proof.
  unfold All, Slugs, Len, Lookup. split; [|split; [|split; [|split]]].
  - by rewrite length_fmap, length_map_to_list.
  - by rewrite length_fmap, length_map_to_list.
  - apply NoDup_fst_map_to_list.
  - intros s. rewrite list_elem_of_fmap. split.
    + intros ([s' b] & -> & Hin). apply elem_of_map_to_list in Hin. by eexists.
    + intros [b Hb]. exists (s, b). split; [done|].
      by apply elem_of_map_to_list.
  - intros b. rewrite list_elem_of_fmap. split.
    + intros ([s b'] & -> & Hin). apply elem_of_map_to_list in Hin. by exists s.
    + intros [s Hs]. exists (s, b). split; [done|].
      by apply elem_of_map_to_list.
Qed.

Section lookup.
Context `{UnicodeTables}.

Theorem LookupByPath_spec r path :
  (LookupByPath r path = None ↔
     (∀ s b, backends r !! s = Some b → ProjectPath b ≠ path)
     ∧ backends r !! Slugify path = None)
  ∧ (∀ b, LookupByPath r path = Some b →
          (∃ s, backends r !! s = Some b ∧ ProjectPath b = path)
          ∨ ((∀ s b', backends r !! s = Some b' → ProjectPath b' ≠ path)
             ∧ backends r !! Slugify path = Some b)).
Proof.
  unfold LookupByPath.
  destruct (list_find (λ e : string * Backend, ProjectPath e.2 = path)
              (map_to_list (backends r))) as [[i [s b]]|] eqn:Hfind.
  - apply list_find_Some in Hfind as (Hi & Hp & _). simpl in Hp.
    assert (Hs : backends r !! s = Some b).
    { apply elem_of_map_to_list. by eapply list_elem_of_lookup_2. }
    split.
    + split; [done|]. intros [Hno _]. by destruct (Hno _ _ Hs).
    + intros b' [= <-]. left. eauto.
  - apply list_find_None in Hfind.
    assert (Hno : ∀ s b, backends r !! s = Some b → ProjectPath b ≠ path).
    { intros s b Hs. apply (proj1 (Forall_forall _ _) Hfind (s, b)).
      by apply elem_of_map_to_list. }
    split.
    + split; [by intros ->|]. by intros [_ ->].
    + intros b Hb. right. done.
Qed.
End lookup.

Theorem Prune_twice now r :
  ((∀ s b, backends r !! s = Some b → stale now (staleAfter r) b = false) →
   Prune now r = (r, []))
  ∧ Prune now (Prune now r).1 = ((Prune now r).1, []).
Proof.
  assert (Hfresh : ∀ r',
    (∀ s b, backends r' !! s = Some b → stale now (staleAfter r') b = false) →
    Prune now r' = (r', [])).
  { intros r' Hall. unfold Prune.
    assert (Hgen : ∀ l st,
      (∀ e, e ∈ l → stale now (staleAfter st.1) e.2 = false) →
      foldl (Prune_step now) st l = st).
    { induction l as [|[s b] l IH]; intros st Hl; [done|].
      change (foldl (Prune_step now) st ((s, b) :: l))
        with (foldl (Prune_step now) (Prune_step now st (s, b)) l).
      assert (Prune_step now st (s, b) = st) as ->.
      { unfold Prune_step. pose proof (Hl (s, b)) as Hf. simpl in Hf.
        rewrite Hf; [done|left]. }
      apply IH. intros e He. apply Hl. by right. }
    apply Hgen. intros [s b] Hin. apply elem_of_map_to_list in Hin.
    simpl. by eapply Hall. }
  split; [apply Hfresh|]. apply Hfresh.
  intros s b. destruct (Prune_indices now r) as (Hb & _ & _).
  destruct (Prune_fold now (map_to_list (backends r)) (r, []))
    as (Hst & _). simpl in Hst. fold (Prune now r) in Hst.
  rewrite Hb, Hst. destruct (backends r !! s) as [b'|]; [|done].
  destruct (stale now (staleAfter r) b') eqn:Hs; [done|]. by intros [= <-].
Qed.

Theorem Prune_keeps_healthy now r s b :
  backends (Prune now r).1 !! s = Some b →
  Healthy now b (staleAfter r) = true ∨ now - LastSeen b = staleAfter r.
Proof.
  destruct (Prune_indices now r) as (Hb & _ & _). rewrite Hb.
  destruct (backends r !! s) as [b'|]; [|done].
  destruct (stale now (staleAfter r) b') eqn:Hs; [done|].
  intros [= <-]. unfold stale in Hs. apply bool_decide_eq_false in Hs.
  unfold Healthy. case_bool_decide; [by left|right; lia].
Qed.

(** ** Slugs *)

Lemma Base_last_element dir base :
  base ≠ [] → Forall (λ c, is_separator c = false) base →
  Base (dir ++ "/"%char :: base) = base.
Proof.
  intros Hne Hbase. unfold Base.
  destruct (dir ++ "/"%char :: base) as [|c p] eqn:Hp.
  { by destruct dir. }
  rewrite <- Hp. clear c p Hp.
  rewrite rev_app_distr. simpl. rewrite <- app_assoc. simpl.
  assert (Hrev : Forall (λ c, is_separator c = false) (rev base)).
  { apply Forall_forall. intros d Hd.
    apply list_elem_of_In, in_rev, list_elem_of_In in Hd.
    by eapply Forall_forall in Hbase. }
  rewrite drop_while_stop.
  2:{ intros d Hd. destruct (rev base) as [|e t] eqn:Hr.
      - apply (f_equal (@rev ascii)) in Hr. rewrite rev_involutive in Hr.
        by destruct Hne.
      - simpl in Hd. injection Hd as <-. by inversion Hrev. }
  destruct (take_while_app (λ c, negb (is_separator c)) (rev base)
              ("/"%char :: rev dir)) as [-> _].
  - eapply Forall_impl; [exact Hrev|]. simpl. by intros d ->.
  - by intros d [= <-].
  - rewrite rev_involutive. by destruct base.
Qed.

Lemma Base_trailing_separator p :
  p ≠ [] → Base (p ++ ["/"%char]) = Base p.
Proof.
  intros Hne. unfold Base.
  destruct (p ++ ["/"%char]) as [|c q] eqn:Hq; [by destruct p|].
  rewrite <- Hq. destruct p as [|d p]; [done|].
  rewrite rev_app_distr. done.
Qed.

Lemma drop_while_all p s :
  Forall (λ c, p c = true) s → drop_while p s = [].
Proof. induction 1 as [|c s Hc _ IH]; simpl; [done|]. by rewrite Hc. Qed.

Lemma symbols_to_hyphens s :
  Forall (λ c, is_symbol c = true) s →
  Forall (λ c, is_hyphen c = true) (replace_from 0 s).
Proof.
  induction 1 as [|c s Hc _ IH]; simpl; [constructor|].
  destruct (is_slug_char c) eqn:Hslug.
  - constructor; [|done].
    revert Hc Hslug. clear.
    destruct c as [[] [] [] [] [] [] [] []]; vm_compute; congruence.
  - constructor; [done|].
    assert (first c = None) as Hfirst.
    { revert Hc. clear.
      destruct c as [[] [] [] [] [] [] [] []]; vm_compute; congruence. }
    by rewrite Hfirst.
Qed.

Lemma collapse_hyphens b s :
  Forall (λ c, is_hyphen c = true) s →
  Forall (λ c, is_hyphen c = true) (collapse_from b s).
Proof.
  intros Hs. revert b. induction Hs as [|c s Hc _ IH]; intros b; simpl.
  - constructor.
  - rewrite Hc. destruct b; [apply IH|]. constructor; [done|apply IH].
Qed.

Lemma Base_symbols s :
  Forall (λ c, is_symbol c = true) s →
  Forall (λ c, is_symbol c = true) (Base s).
Proof.
  intros Hs. unfold Base. destruct s as [|c s]; [by repeat constructor|].
  set (p := c :: s) in *.
  destruct (rev (take_while _ _)) as [|d t] eqn:Ht; [by repeat constructor|].
  rewrite <- Ht. apply Forall_forall. intros e He.
  apply list_elem_of_In, in_rev, list_elem_of_In in He.
  assert (Hsub : ∀ q (l : list ascii) x, x ∈ take_while q l → x ∈ l).
  { intros q l x. induction l as [|y l IH]; simpl; [done|].
    destruct (q y); [|by intros ?%elem_of_nil].
    intros [->|Hx]%elem_of_cons; [left|right; auto]. }
  apply Hsub in He.
  destruct (drop_while_split is_separator (rev p)) as (l & Hl & _).
  assert (Hin : e ∈ rev p) by (rewrite Hl; apply elem_of_app; by right).
  apply list_elem_of_In, in_rev, list_elem_of_In in Hin.
  by eapply Forall_forall in Hs.
Qed.

Section slugify_more.
Context `{UnicodeTables}.

Theorem Slugify_fixed_points (s : string) :
  Slugify s = s ↔ slug_shaped (bytes s).
Proof.
  unfold Slugify. split.
  - intros Heq. rewrite <- Heq at 1.
    rewrite String.list_ascii_of_string_of_list_ascii.
    apply Slugify_bytes_shaped.
  - intros Hshape. rewrite Slugify_bytes_fixed by done.
    apply String.string_of_list_ascii_of_string.
Qed.

Theorem Slugify_last_element (dir base : string) :
  base ≠ EmptyString →
  Forall (λ c, is_separator c = false) (bytes base) →
  Slugify (dir +:+ "/" +:+ base) = Slugify base
  ∧ Slugify (dir +:+ "/" +:+ base +:+ "/") = Slugify base.
Proof.
  intros Hne Hbase.
  assert (Hb : bytes base ≠ []) by (by destruct base).
  assert (Hlast : Base (bytes dir ++ "/"%char :: bytes base) = Base (bytes base)).
  { rewrite Base_last_element by done. symmetry. by apply Base_id. }
  unfold Slugify, Slugify_bytes. rewrite !bytes_app. simpl.
  split; [by rewrite Hlast|].
  assert (bytes dir ++ "/"%char :: bytes base ++ ["/"%char]
          = (bytes dir ++ "/"%char :: bytes base) ++ ["/"%char]) as ->.
  { by rewrite <- app_assoc. }
  rewrite Base_trailing_separator, Hlast; [done|].
  by destruct (bytes dir).
Qed.

Theorem Slugify_symbols_default (x : string) :
  Forall (λ c, is_symbol c = true) (bytes x) →
  Slugify x = "default".
Proof.
  intros Hx. unfold Slugify, Slugify_bytes.
  pose proof (Base_symbols _ Hx) as Hbase.
  set (base := Base (bytes x)) in *.
  assert (Hlow : ToLower base = base).
  { apply ToLower_id.
    - eapply Forall_impl; [exact Hbase|]. intros c. clear.
      destruct c as [[] [] [] [] [] [] [] []]; vm_compute; congruence.
    - eapply Forall_impl; [exact Hbase|]. intros c. clear.
      destruct c as [[] [] [] [] [] [] [] []]; vm_compute; congruence. }
  rewrite Hlow. unfold nonAlphaNum_ReplaceAll, multiHyphen_ReplaceAll.
  pose proof (collapse_hyphens false _ (symbols_to_hyphens _ Hbase)) as Hh.
  unfold Trim_hyphen. rewrite (drop_while_all _ _ Hh). done.
Qed.
End slugify_more.

(** ** Router *)

Lemma HasPrefix_app p t : HasPrefix (p ++ t) p = true.
Proof.
  induction p as [|c p IH]; simpl; [done|]. by rewrite Ascii.eqb_refl, IH.
Qed.

Lemma HasPrefix_split s p : HasPrefix s p = true → ∃ t, s = p ++ t.
Proof.
  revert s. induction p as [|c p IH]; intros s; simpl; [by exists s|].
  destruct s as [|d s]; [done|].
  intros [Hc Hp]%andb_true_iff. apply Ascii.eqb_eq in Hc as ->.
  destruct (IH _ Hp) as [t ->]. by exists t.
Qed.

Lemma HasSuffix_app t suf : HasSuffix (t ++ suf) suf = true.
Proof. unfold HasSuffix. rewrite rev_app_distr. apply HasPrefix_app. Qed.

Lemma HasSuffix_split s suf : HasSuffix s suf = true → ∃ t, s = t ++ suf.
Proof.
  unfold HasSuffix. intros [t Ht]%HasPrefix_split. exists (rev t).
  apply (f_equal (@rev ascii)) in Ht.
  by rewrite rev_involutive, rev_app_distr, rev_involutive in Ht.
Qed.

Lemma TrimSuffix_app t suf : TrimSuffix (t ++ suf) suf = t.
Proof.
  unfold TrimSuffix. rewrite HasSuffix_app, length_app.
  replace (length t + length suf - length suf)%nat with (length t) by lia.
  by rewrite take_app_length.
Qed.

Lemma before_last_none sep s :
  Forall (λ c, Ascii.eqb c sep = false) s → before_last sep s = None.
Proof.
  intros Hs. unfold before_last. rewrite drop_while_all; [done|].
  apply Forall_forall. intros c Hc.
  apply list_elem_of_In, in_rev, list_elem_of_In in Hc.
  eapply Forall_forall in Hs; [|done]. by rewrite Hs.
Qed.

Lemma before_last_app sep front back :
  Forall (λ c, Ascii.eqb c sep = false) back →
  before_last sep (front ++ sep :: back) = Some front.
Proof.
  intros Hb. unfold before_last. rewrite rev_app_distr. simpl.
  rewrite <- app_assoc. simpl.
  destruct (take_while_app (λ c, negb (Ascii.eqb c sep)) (rev back)
              (sep :: rev front)) as [_ ->].
  - apply Forall_forall. intros c Hc.
    apply list_elem_of_In, in_rev, list_elem_of_In in Hc.
    eapply Forall_forall in Hb; [|done]. by rewrite Hb.
  - intros c [= <-]. by rewrite Ascii.eqb_refl.
  - by rewrite rev_involutive.
Qed.

Lemma before_last_split sep s front :
  before_last sep s = Some front → ∃ back, s = front ++ sep :: back.
Proof.
  unfold before_last.
  destruct (drop_while_split (λ c, negb (Ascii.eqb c sep)) (rev s))
    as (l & Hl & _).
  destruct (drop_while _ (rev s)) as [|c t] eqn:Hd; [done|].
  intros [= <-]. exists (rev l).
  assert (c = sep) as ->.
  { pose proof (drop_while_head (λ c, negb (Ascii.eqb c sep)) (rev s) c) as Hc.
    rewrite Hd in Hc. specialize (Hc eq_refl).
    apply negb_false_iff, Ascii.eqb_eq in Hc. done. }
  apply (f_equal (@rev ascii)) in Hl.
  rewrite rev_involutive, rev_app_distr in Hl. simpl in Hl.
  by rewrite <- app_assoc in Hl.
Qed.

Lemma slug_key_colon_free s : slug_key s → colon_free s.
Proof.
  intros [_ Hchars]. eapply Forall_impl; [exact Hchars|].
  intros c. clear.
  destruct c as [[] [] [] [] [] [] [] []]; vm_compute; congruence.
Qed.

Lemma slugFromHost_domain rt slug :
  colon_free slug → colon_free (Username (proxy.cfg rt)) →
  proxy.slugFromHost rt (DomainFor (proxy.cfg rt) slug) = slug.
Proof.
  intros Hs Hu. unfold proxy.slugFromHost, DomainFor.
  rewrite !bytes_app.
  rewrite before_last_none.
  2:{ apply Forall_app. split; [done|]. apply Forall_app.
      split; [by repeat constructor|]. apply Forall_app.
      split; [done|by repeat constructor]. }
  assert (bytes slug ++ bytes "-" ++ bytes (Username (proxy.cfg rt))
            ++ bytes ".local"
          = (bytes slug ++ bytes "-" ++ bytes (Username (proxy.cfg rt)))
            ++ bytes ".local") as -> by (by rewrite <- !app_assoc).
  rewrite HasSuffix_app, TrimSuffix_app. simpl negb.
  cbv iota.
  rewrite HasSuffix_app, TrimSuffix_app. simpl.
  apply String.string_of_list_ascii_of_string.
Qed.

Lemma slugFromHost_domain_port rt slug port :
  colon_free slug → colon_free (Username (proxy.cfg rt)) → colon_free port →
  proxy.slugFromHost rt (DomainFor (proxy.cfg rt) slug +:+ ":" +:+ port)
  = slug.
Proof.
  intros Hs Hu Hp.
  pose proof (slugFromHost_domain rt slug Hs Hu) as Hplain.
  unfold proxy.slugFromHost in *.
  rewrite !(bytes_app (DomainFor _ _)). simpl.
  rewrite before_last_app by done.
  rewrite before_last_none in Hplain; [done|].
  unfold DomainFor. rewrite !bytes_app.
  apply Forall_app. split; [done|]. apply Forall_app.
  split; [by repeat constructor|]. apply Forall_app.
  split; [done|by repeat constructor].
Qed.

Lemma slugFromHost_inv rt host s :
  proxy.slugFromHost rt host = s → s ≠ EmptyString →
  host = DomainFor (proxy.cfg rt) s
  ∨ ∃ port, host = DomainFor (proxy.cfg rt) s +:+ ":" +:+ port.
Proof.
  unfold proxy.slugFromHost. rewrite (bytes_app "-").
  set (hostname := match before_last ":" (bytes host) with
                   | Some front => front
                   | None => bytes host
                   end).
  set (suffix := bytes "-" ++ bytes (Username (proxy.cfg rt))).
  destruct (HasSuffix hostname (bytes ".local")) eqn:Hlocal;
    cbn [negb]; [|intros Hs Hne; congruence].
  destruct (HasSuffix_split _ _ Hlocal) as [h1 Hh1].
  rewrite Hh1, TrimSuffix_app.
  destruct (HasSuffix h1 suffix) eqn:Huser;
    cbn [negb]; [|intros Hs Hne; congruence].
  destruct (HasSuffix_split _ _ Huser) as [slug Hslug].
  rewrite Hslug, TrimSuffix_app. intros <- _.
  assert (Hname : str hostname = DomainFor (proxy.cfg rt) (str slug)).
  { apply bytes_inj. unfold DomainFor.
    rewrite !bytes_app, !String.list_ascii_of_string_of_list_ascii.
    rewrite Hh1, Hslug. subst suffix. by rewrite <- !app_assoc. }
  subst hostname.
  destruct (before_last ":" (bytes host)) as [front|] eqn:Hcut.
  - right. destruct (before_last_split _ _ _ Hcut) as [back Hback].
    exists (str back). rewrite <- Hname. apply bytes_inj.
    rewrite !bytes_app, !String.list_ascii_of_string_of_list_ascii. done.
  - left. rewrite <- Hname. by rewrite String.string_of_list_ascii_of_string.
Qed.

Lemma take_drop_while p (s : list ascii) :
  take_while p s ++ drop_while p s = s
  ∧ Forall (λ c, p c = true) (take_while p s).
Proof.
  induction s as [|c s [IH1 IH2]]; simpl; [done|].
  destruct (p c) eqn:Hc; simpl; [|done].
  rewrite IH1. split; [done|]. by constructor.
Qed.

Theorem slugFromHost_DomainFor rt slug :
  colon_free slug → colon_free (Username (proxy.cfg rt)) →
  proxy.slugFromHost rt (DomainFor (proxy.cfg rt) slug) = slug
  ∧ (∀ port, colon_free port →
       proxy.slugFromHost rt (DomainFor (proxy.cfg rt) slug +:+ ":" +:+ port)
       = slug).
Proof.
  intros Hs Hu. split; [by apply slugFromHost_domain|].
  intros port Hp. by apply slugFromHost_domain_port.
Qed.

Theorem slugFromHost_sound rt host :
  proxy.slugFromHost rt host ≠ EmptyString →
  host = DomainFor (proxy.cfg rt) (proxy.slugFromHost rt host)
  ∨ ∃ port, host = DomainFor (proxy.cfg rt) (proxy.slugFromHost rt host)
                   +:+ ":" +:+ port.
Proof. by apply slugFromHost_inv. Qed.

Theorem slugFromPath_shape path :
  Forall (λ c, is_separator c = false)
    (bytes (proxy.slugFromPath path).1)
  ∧ ((proxy.slugFromPath path).1 ≠ EmptyString →
     (∃ rest, (proxy.slugFromPath path).2 = "/" +:+ rest)
     ∧ (path = (proxy.slugFromPath path).1 +:+ (proxy.slugFromPath path).2
        ∨ path = "/" +:+ (proxy.slugFromPath path).1
                 +:+ (proxy.slugFromPath path).2
        ∨ ((proxy.slugFromPath path).2 = "/"
           ∧ (path = (proxy.slugFromPath path).1
              ∨ path = "/" +:+ (proxy.slugFromPath path).1)))).
Proof.
  unfold proxy.slugFromPath.
  set (trimmed := TrimPrefix (bytes path) (bytes "/")).
  assert (Htrim : bytes path = trimmed ∨ bytes path = "/"%char :: trimmed).
  { subst trimmed. unfold TrimPrefix.
    destruct (HasPrefix (bytes path) (bytes "/")) eqn:Hp; [|by left].
    apply HasPrefix_split in Hp as [t Ht]. rewrite Ht. by right. }
  destruct trimmed as [|c t] eqn:Ht; [by split|].
  rewrite <- Ht in *. clear c t Ht.
  destruct (take_drop_while (λ c, negb (Ascii.eqb c "/")) trimmed)
    as [Hsplit Hseg].
  unfold SplitN2.
  set (slug := take_while (λ c, negb (Ascii.eqb c "/")) trimmed) in *.
  assert (Hnosep : Forall (λ c, is_separator c = false) slug).
  { eapply Forall_impl; [exact Hseg|]. intros c Hc. unfold is_separator.
    by apply negb_true_iff in Hc. }
  destruct (drop_while (λ c, negb (Ascii.eqb c "/")) trimmed)
    as [|d after] eqn:Hdrop; cbn [fst snd]; clearbody slug trimmed.
  - rewrite String.list_ascii_of_string_of_list_ascii. split; [done|].
    intros _. split; [by exists EmptyString|]. right. right.
    split; [done|]. rewrite app_nil_r in Hsplit. rewrite <- Hsplit in Htrim.
    destruct Htrim as [Hp|Hp]; [left|right]; apply bytes_inj;
      rewrite ?bytes_app, ?String.list_ascii_of_string_of_list_ascii; done.
  - rewrite String.list_ascii_of_string_of_list_ascii. split; [done|].
    intros _. split; [by eexists|].
    assert (d = "/"%char) as ->.
    { pose proof (drop_while_head (λ c, negb (Ascii.eqb c "/")) trimmed d)
        as Hd. rewrite Hdrop in Hd. specialize (Hd eq_refl).
      by apply negb_false_iff, Ascii.eqb_eq in Hd. }
    rewrite <- Hsplit in Htrim.
    destruct Htrim as [Hp|Hp]; [left|right; left]; apply bytes_inj;
      rewrite ?bytes_app, ?String.list_ascii_of_string_of_list_ascii;
      rewrite Hp; simpl; by rewrite ?String.list_ascii_of_string_of_list_ascii.
Qed.

Section routing.
Context `{UnicodeTables}.

Theorem host_routing_keeps_path rt r s b :
  reachable (proxy.reg rt) →
  Lookup (proxy.reg rt) s = Some b →
  colon_free (Username (proxy.cfg rt)) →
  proxy.Host r = DomainFor (proxy.cfg rt) s
  ∨ (∃ port, colon_free port
             ∧ proxy.Host r = DomainFor (proxy.cfg rt) s +:+ ":" +:+ port) →
  proxy.ServeHTTP rt r = proxy.proxyTo b r EmptyString
  ∧ (0 ≤ Port b → (∃ rest, proxy.Path r = "/" +:+ rest) →
     proxy.ServeHTTP rt r =
       proxy.Forward ("127.0.0.1:" +:+ FormatInt (Port b)) (proxy.Path r)).
Proof.
  intros Hreach Hb Hu Hhost.
  destruct (reachable_I1_I4 _ Hreach) as (_ & _ & Hkeys).
  pose proof (Hkeys _ _ Hb) as Hkey.
  pose proof (slug_key_colon_free _ Hkey) as Hs.
  assert (Hslug : proxy.slugFromHost rt (proxy.Host r) = s).
  { destruct Hhost as [->|(port & Hp & ->)].
    - by apply slugFromHost_domain.
    - by apply slugFromHost_domain_port. }
  assert (Hserve : proxy.ServeHTTP rt r = proxy.proxyTo b r EmptyString).
  { apply ServeHTTP_host; rewrite Hslug; [apply Hkey|done]. }
  split; [done|]. intros Hport [rest Hpath]. rewrite Hserve.
  unfold proxy.proxyTo. rewrite bool_decide_eq_false_2 by lia.
  rewrite (bool_decide_eq_false_2 (EmptyString ≠ EmptyString))
    by (by intros Hne).
  by rewrite Hpath.
Qed.

Theorem published_handles_route_back rt b :
  reachable (proxy.reg rt) →
  b ∈ All (proxy.reg rt) →
  Lookup (proxy.reg rt) (Slug b) = Some b
  ∧ ("path_prefix", proxy.JString ("/" +:+ Slug b +:+ "/"))
      ∈ proxy.backendInfo rt b
  ∧ proxy.slugFromPath ("/" +:+ Slug b +:+ "/") = (Slug b, "/")
  ∧ ("domain", proxy.JString (DomainFor (proxy.cfg rt) (Slug b)))
      ∈ proxy.backendInfo rt b
  ∧ (colon_free (Username (proxy.cfg rt)) →
     proxy.slugFromHost rt (DomainFor (proxy.cfg rt) (Slug b)) = Slug b).
Proof.
  intros Hreach Hin.
  destruct (reachable_I1_I4 _ Hreach) as (_ & HI4 & Hkeys).
  assert (Hb : Lookup (proxy.reg rt) (Slug b) = Some b).
  { unfold All in Hin. apply list_elem_of_fmap in Hin as ([s b'] & -> & Hin).
    apply elem_of_map_to_list in Hin. simpl.
    by rewrite (HI4 _ _ Hin). }
  pose proof (Hkeys _ _ Hb) as Hkey.
  split; [done|]. split; [|split; [|split]].
  - unfold proxy.backendInfo. do 6 right. left.
  - apply (slugFromPath_segment (Slug b) "/" Hkey).
    right. by exists EmptyString.
  - unfold proxy.backendInfo. do 5 right. left.
  - intros Hu. apply slugFromHost_domain; [|done].
    by apply slug_key_colon_free.
Qed.
End routing.

(** ** Advertiser *)

Lemma Sync_remove_trace cur l st :
  discovery.trace (foldl (discovery.Sync_remove cur) st l).2
  = discovery.trace st.2 ++ shutdowns cur l
  ∧ discovery.cfg (foldl (discovery.Sync_remove cur) st l).1
    = discovery.cfg st.1
  ∧ discovery.fresh (foldl (discovery.Sync_remove cur) st l).2
    = discovery.fresh st.2.
Proof.
  revert st. induction l as [|[slug srv] l IH]; intros st.
  - simpl. by rewrite app_nil_r.
  - change (foldl (discovery.Sync_remove cur) st ((slug, srv) :: l))
      with (foldl (discovery.Sync_remove cur)
              (discovery.Sync_remove cur st (slug, srv)) l).
    destruct (IH (discovery.Sync_remove cur st (slug, srv)))
      as (-> & -> & ->).
    unfold shutdowns, discovery.Sync_remove.
    destruct (decide (slug ∈ cur)) as [Hin|Hout].
    + rewrite bool_decide_eq_false_2 by (by intros Hn).
      rewrite filter_cons_False by (by intros Hn). done.
    + rewrite bool_decide_eq_true_2 by done.
      rewrite filter_cons_True by done. simpl.
      by rewrite <- app_assoc.
Qed.

Lemma register_spec b a net :
  discovery.register b (a, net) =
    match discovery.script net with
    | false :: rest =>
        (a, {| discovery.fresh := discovery.fresh net;
               discovery.script := rest;
               discovery.trace :=
                 discovery.trace net
                 ++ [discovery.RegistrationFailed
                       (service_for (discovery.cfg a) b)] |}, false)
    | _ =>
        ({| discovery.cfg := discovery.cfg a;
            discovery.servers :=
              <[Slug b := discovery.fresh net]> (discovery.servers a) |},
         {| discovery.fresh := S (discovery.fresh net);
            discovery.script := tail (discovery.script net);
            discovery.trace :=
              discovery.trace net
              ++ [discovery.Registered (service_for (discovery.cfg a) b)
                    (discovery.fresh net)] |}, true)
    end.
Proof.
  unfold discovery.register, discovery.RegisterProxy, service_for.
  destruct (bool_decide (Version b ≠ EmptyString));
    destruct (discovery.script net) as [|[] rest];
    rewrite ?app_nil_r; reflexivity.
Qed.

Lemma Sync_add_trace st l :
  discovery.cfg (foldl discovery.Sync_add st l).1 = discovery.cfg st.1
  ∧ ∃ evs, discovery.trace (foldl discovery.Sync_add st l).2
           = discovery.trace st.2 ++ evs
           ∧ Forall (registration_of (discovery.cfg st.1) l) evs.
Proof.
  revert st. induction l as [|b l IH]; intros st.
  - simpl. split; [done|]. exists []. by rewrite app_nil_r.
  - change (foldl discovery.Sync_add st (b :: l))
      with (foldl discovery.Sync_add (discovery.Sync_add st b) l).
    destruct (IH (discovery.Sync_add st b)) as (Hcfg & evs & Htr & Hevs).
    assert (Hstep : discovery.cfg (discovery.Sync_add st b).1
                    = discovery.cfg st.1
                    ∧ ∃ ev, discovery.trace (discovery.Sync_add st b).2
                            = discovery.trace st.2 ++ ev
                            ∧ Forall (registration_of (discovery.cfg st.1)
                                        (b :: l)) ev).
    { unfold discovery.Sync_add.
      destruct (discovery.servers st.1 !! Slug b).
      { split; [done|]. exists []. by rewrite app_nil_r. }
      destruct st as [a net]. rewrite register_spec.
      destruct (discovery.script net) as [|[] rest]; cbn [fst snd];
        (split; [done|]); eexists [_]; (split; [done|]);
        constructor; try constructor; exists b; (split; [left|]); eauto. }
    destruct Hstep as (Hcfg0 & ev & Htr0 & Hev).
    split; [by rewrite Hcfg|].
    exists (ev ++ evs). split; [by rewrite Htr, Htr0, <- app_assoc|].
    apply Forall_app. split; [done|].
    rewrite Hcfg0 in Hevs. eapply Forall_impl; [exact Hevs|].
    intros e (b' & Hb' & He). exists b'. split; [by right|done].
Qed.

Lemma Sync_add_preserves st l s srv :
  discovery.servers st.1 !! s = Some srv →
  discovery.servers (foldl discovery.Sync_add st l).1 !! s = Some srv.
Proof.
  revert st. induction l as [|b l IH]; intros st Hs; simpl; [done|].
  apply IH. unfold discovery.Sync_add.
  destruct (discovery.servers st.1 !! Slug b) as [srv'|] eqn:Hb; [done|].
  destruct st as [a net]. rewrite register_spec. simpl in Hs, Hb.
  destruct (discovery.script net) as [|[] rest]; cbn [fst snd];
    try done; simpl; rewrite lookup_insert_ne; try done;
    intros Heq; congruence.
Qed.

Theorem Sync_reconciles backends st :
  (∀ s srv, discovery.servers (discovery.Sync backends st).1 !! s = Some srv →
            s ∈ Slug <$> backends)
  ∧ (∀ s srv, discovery.servers st.1 !! s = Some srv →
              s ∈ Slug <$> backends →
              discovery.servers (discovery.Sync backends st).1 !! s
              = Some srv)
  ∧ (∀ s srv, discovery.servers st.1 !! s = Some srv →
              s ∉ Slug <$> backends →
              discovery.ShutDown srv
              ∈ discovery.trace (discovery.Sync backends st).2)
  ∧ ∃ regs,
      discovery.trace (discovery.Sync backends st).2
      = discovery.trace st.2
        ++ shutdowns (list_to_set (Slug <$> backends))
             (map_to_list (discovery.servers st.1))
        ++ regs
      ∧ Forall (registration_of (discovery.cfg st.1) backends) regs.
Proof.
  unfold discovery.Sync.
  set (cur := list_to_set (Slug <$> backends) : gset string).
  set (st1 := foldl (discovery.Sync_remove cur) st
                (map_to_list (discovery.servers st.1))).
  assert (Hcur : ∀ s, s ∈ cur ↔ s ∈ Slug <$> backends).
  { intros s. subst cur. apply elem_of_list_to_set. }
  assert (Hst1 : ∀ s, discovery.servers st1.1 !! s =
                      if bool_decide (s ∈ cur)
                      then discovery.servers st.1 !! s else None).
  { intros s. subst st1. rewrite Sync_remove_servers.
    destruct (decide (s ∈ cur)) as [Hin|Hout].
    - rewrite bool_decide_eq_false_2 by (intros [_ Hn]; done).
      by rewrite (bool_decide_eq_true_2 _ Hin).
    - rewrite (bool_decide_eq_false_2 _ Hout).
      destruct (discovery.servers st.1 !! s) as [srv|] eqn:Hs.
      + rewrite bool_decide_eq_true_2; [done|]. split; [|done].
        apply list_elem_of_fmap. exists (s, srv). split; [done|].
        by apply elem_of_map_to_list.
      + by case_bool_decide. }
  destruct (Sync_remove_trace cur (map_to_list (discovery.servers st.1)) st)
    as (Htr1 & Hcfg1 & _). fold st1 in Htr1, Hcfg1.
  destruct (Sync_add_trace st1 backends) as (_ & regs & Htr2 & Hregs).
  split; [|split; [|split]].
  - intros s srv Hs. apply Hcur.
    apply (Sync_add_keys cur st1 backends).
    + intros s' [srv' Hs']. rewrite Hst1 in Hs'. by case_bool_decide.
    + intros b Hb. apply Hcur, list_elem_of_fmap. eauto.
    + eauto.
  - intros s srv Hs Hin.
    assert (Hs1 : discovery.servers st1.1 !! s = Some srv).
    { rewrite Hst1. by rewrite bool_decide_eq_true_2 by (by apply Hcur). }
    by apply Sync_add_preserves.
  - intros s srv Hs Hout. rewrite Htr2, Htr1.
    apply elem_of_app. left. apply elem_of_app. right.
    unfold shutdowns. apply list_elem_of_fmap. exists (s, srv).
    split; [done|]. apply list_elem_of_filter. split.
    + simpl. intros Hin. by apply Hout, Hcur.
    + by apply elem_of_map_to_list.
  - exists regs. split; [by rewrite Htr2, Htr1, <- app_assoc|].
    by rewrite Hcfg1 in Hregs.
Qed.

Theorem Shutdown_idempotent st :
  discovery.servers (discovery.Shutdown st).1 = ∅
  ∧ discovery.trace (discovery.Shutdown st).2
    = discovery.trace st.2
      ++ (discovery.ShutDown <$> (map_to_list (discovery.servers st.1)).*2)
  ∧ discovery.Shutdown (discovery.Shutdown st) = discovery.Shutdown st.
Proof.
  assert (Hgen : ∀ (l : list (string * discovery.Handle)) net,
    foldl (λ net entry, discovery.Server_Shutdown entry.2 net) net l
    = {| discovery.fresh := discovery.fresh net;
         discovery.script := discovery.script net;
         discovery.trace := discovery.trace net
                            ++ (discovery.ShutDown <$> l.*2) |}).
  { induction l as [|[s srv] l IH]; intros net; simpl.
    - rewrite app_nil_r. by destruct net.
    - rewrite IH. simpl. by rewrite <- app_assoc. }
  unfold discovery.Shutdown. split; [done|]. split.
  - simpl. by rewrite Hgen.
  - simpl. by rewrite map_to_list_empty.
Qed.

(** ** Configuration and scanner *)

Theorem Validate_accepts c s :
  (Validate c s = None ↔
     1 ≤ ListenPort c ≤ 65535
     ∧ 1 ≤ ScanPortStart s ∧ ScanPortStart s ≤ ScanPortEnd s
     ∧ ScanPortEnd s ≤ 65535
     ∧ Username c ≠ EmptyString
     ∧ 1000000000 ≤ ScanInterval s)
  ∧ (∀ username,
       Validate (Defaults username).1 (Defaults username).2 = None
       ↔ username ≠ EmptyString).
Proof.
  split.
  - unfold Validate, Second, Millisecond.
    repeat case_bool_decide; simpl;
      (split;
       [intros Heq; try discriminate Heq; repeat split; (lia || done)
       |intros (Hl & Hs1 & Hs2 & He & Hu & Hi); try done; lia]).
  - intros username. unfold Validate, Defaults, Second, Millisecond. simpl.
    repeat case_bool_decide; simpl;
      (split; [intros Heq; try discriminate Heq; (lia || done)
              |intros Hu; try done; lia]).
Qed.

Lemma string_of_uint_digits d :
  Forall (λ c, is_digit c = true) (bytes (NilEmpty.string_of_uint d)).
Proof. induction d; simpl; by constructor. Qed.

Lemma FormatInt_digits n :
  0 ≤ n →
  Forall (λ c, is_digit c = true) (bytes (FormatInt n))
  ∧ bytes (FormatInt n) ≠ [].
Proof.
  intros Hn. unfold FormatInt.
  assert (Hu : ∀ d, Forall (λ c, is_digit c = true)
                      (bytes (NilZero.string_of_uint d))
                    ∧ bytes (NilZero.string_of_uint d) ≠ []).
  { intros d. unfold NilZero.string_of_uint.
    destruct d; (split; [try apply string_of_uint_digits|done]).
    by repeat constructor. }
  destruct n as [|p|p]; [by split; [repeat constructor|]|apply Hu|lia].
Qed.

Lemma port_slug_shaped n :
  0 ≤ n → slug_shaped (bytes ("port-" +:+ FormatInt n)).
Proof.
  intros Hn. destruct (FormatInt_digits n Hn) as [Hd Hne].
  rewrite bytes_app. set (d := bytes (FormatInt n)) in *.
  assert (Hnh : Forall (λ c, c ≠ hyphen) d).
  { eapply Forall_impl; [exact Hd|]. intros c Hc ->. by vm_compute in Hc. }
  split.
  - apply Forall_app. split; [by repeat constructor|].
    eapply Forall_impl; [exact Hd|]. intros c Hc. unfold is_slug_char.
    by rewrite Hc, orb_true_r.
  - done.
  - done.
  - rewrite last_app_nonempty by done.
    destruct (last d) as [c|] eqn:Hl; [|done].
    intros [= ->]. apply last_Some in Hl as [l' ->].
    apply Forall_app in Hnh as [_ Hh]. by inversion Hh.
  - intros l1 l2 Heq. simpl in Heq.
    do 4 (destruct l1 as [|? l1]; [discriminate Heq|injection Heq as _ Heq]).
    destruct l1 as [|? l1]; simpl in Heq.
    + injection Heq as Heq. rewrite Heq in Hnh. by inversion Hnh.
    + injection Heq as _ Heq. rewrite Heq in Hnh.
      apply Forall_app in Hnh as [_ Hh]. by inversion Hh.
Qed.

Lemma Upsert_ports now port name path version r lo hi `{UnicodeTables} :
  lo ≤ port ≤ hi → ports_within lo hi r →
  ports_within lo hi (Upsert now port name path version r).1.
Proof.
  intros Hport Hr.
  pose proof (after_port_check_lookup port (Slugify path) r) as Hsub.
  destruct (Upsert_cases now port name path version r)
    as [(ex & _ & _ & ->)|[(ex & _ & _ & _ & ->)|(_ & ->)]];
    unfold ports_within; simpl; intros key b Hb;
    apply lookup_insert_Some in Hb as [[_ <-]|[_ Hb]]; simpl;
    try done; by eapply Hr, Hsub.
Qed.

Section scanning.
Context `{UnicodeTables}.

Lemma Upsert_indexed now port name path version r :
  ∃ key slug,
    byPort (Upsert now port name path version r).1 !! port = Some key
    ∧ backends (Upsert now port name path version r).1 !! key =
        Some {| Port := port; ProjectName := name; ProjectPath := path;
                Slug := slug; Version := version; LastSeen := now |}.
Proof.
  destruct (Upsert_cases now port name path version r)
    as [(ex & _ & _ & ->)|[(ex & _ & _ & _ & ->)|(_ & ->)]]; simpl;
    eexists _, _; by rewrite !lookup_insert_eq.
Qed.

Theorem fallback_slug port :
  0 ≤ port →
  Slugify ("/unknown/port-" +:+ FormatInt port) = "port-" +:+ FormatInt port.
Proof.
  intros Hport. pose proof (port_slug_shaped port Hport) as Hshape.
  unfold Slugify, Slugify_bytes.
  assert (Hbase : Base (bytes ("/unknown/port-" +:+ FormatInt port))
                  = bytes ("port-" +:+ FormatInt port)).
  { rewrite !bytes_app.
    change (bytes "/unknown/port-")
      with (bytes "/unknown" ++ "/"%char :: bytes "port-").
    rewrite <- app_assoc. simpl app at 2.
    rewrite <- (bytes_app "port-"). apply Base_last_element.
    - apply Hshape.
    - eapply Forall_impl; [apply Hshape|]. intros c Hc.
      by apply slug_char_facts in Hc as (_ & _ & ?). }
  rewrite Hbase.
  pose proof (Slugify_bytes_fixed _ Hshape) as Hfix.
  unfold Slugify_bytes in Hfix.
  rewrite Base_id in Hfix; [|apply Hshape|].
  2:{ eapply Forall_impl; [apply Hshape|]. intros c Hc.
      by apply slug_char_facts in Hc as (_ & _ & ?). }
  rewrite Hfix. apply String.string_of_list_ascii_of_string.
Qed.

Theorem probePort_outcome p r :
  (scanner.getHealth (scanner.probe_health p) = None →
   scanner.probePort p r = r)
  ∧ (∀ health,
       scanner.getHealth (scanner.probe_health p) = Some health →
       scanner.Healthy health = false →
       scanner.probePort p r = r)
  ∧ (∀ health,
       scanner.getHealth (scanner.probe_health p) = Some health →
       scanner.Healthy health = true →
       ∃ b, LookupByPort (scanner.probePort p r) (scanner.probe_port p)
            = Returns (Some b)
            ∧ Port b = scanner.probe_port p
            ∧ Version b = scanner.Version health
            ∧ LastSeen b = scanner.probe_now p
            ∧ match scanner.getProject (scanner.probe_project p) with
              | None =>
                  ProjectName b
                  = "port-" +:+ FormatInt (scanner.probe_port p)
                  ∧ ProjectPath b
                    = "/unknown/port-" +:+ FormatInt (scanner.probe_port p)
              | Some project =>
                  ProjectPath b
                  = (if bool_decide (scanner.Path project = EmptyString)
                     then "/unknown/" +:+ scanner.ID project
                     else scanner.Path project)
                  ∧ ProjectName b = str (Base (bytes (ProjectPath b)))
              end).
Proof.
  unfold scanner.probePort. split; [by intros ->|]. split.
  - intros health -> ->. done.
  - intros health -> ->. simpl.
    destruct (scanner.getProject (scanner.probe_project p)) as [project|].
    + match goal with
      | |- context [Upsert ?now ?port ?name ?path ?version r] =>
          destruct (Upsert_indexed now port name path version r)
            as (key & slug & Hport & Hback)
      end.
      eexists. unfold LookupByPort. rewrite Hport, Hback. done.
    + match goal with
      | |- context [Upsert ?now ?port ?name ?path ?version r] =>
          destruct (Upsert_indexed now port name path version r)
            as (key & slug & Hport & Hback)
      end.
      eexists. unfold LookupByPort. rewrite Hport, Hback. done.
Qed.

Lemma probePort_ports p r lo hi :
  lo ≤ scanner.probe_port p ≤ hi → ports_within lo hi r →
  ports_within lo hi (scanner.probePort p r).
Proof.
  intros Hport Hr. unfold scanner.probePort.
  destruct (scanner.getHealth _) as [health|]; [|done].
  destruct (scanner.Healthy health); simpl; [|done].
  destruct (scanner.getProject _); by apply Upsert_ports.
Qed.

Lemma scan_ports probes now r lo hi :
  (∀ p, p ∈ probes → lo ≤ scanner.probe_port p ≤ hi) →
  ports_within lo hi r →
  ports_within lo hi (scanner.scan probes now r).1.
Proof.
  intros Hprobes Hr. unfold scanner.scan.
  assert (Hfold : ports_within lo hi
                    (foldl (λ r p, scanner.probePort p r) r probes)).
  { revert r Hr. induction probes as [|p probes IH]; intros r Hr; simpl;
      [done|].
    apply IH.
    - intros q Hq. apply Hprobes. by right.
    - apply probePort_ports; [apply Hprobes; left|done]. }
  intros key b. destruct (Prune_indices now
    (foldl (λ r p, scanner.probePort p r) r probes)) as (Hb & _ & _).
  rewrite Hb.
  destruct (backends _ !! key) as [b'|] eqn:Hk; [|done].
  destruct (stale _ _ _); [done|]. intros [= <-]. by eapply Hfold.
Qed.

Theorem scanned_ports_are_valid c s staleAfter passes :
  Validate c s = None →
  (∀ pass p, pass ∈ passes → p ∈ pass.1 →
             ScanPortStart s ≤ scanner.probe_port p ≤ ScanPortEnd s) →
  ∀ key b,
    backends (scans staleAfter passes) !! key = Some b →
    1 ≤ Port b ≤ 65535
    ∧ ∀ req override,
        proxy.proxyTo b req override ≠
          proxy.Respond (proxy.http_Error "internal error" 500).
Proof.
  intros Hvalid Hrange.
  assert (Hbounds : 1 ≤ ScanPortStart s ∧ ScanPortEnd s ≤ 65535).
  { revert Hvalid. unfold Validate.
    repeat (case_bool_decide; simpl); try done. lia. }
  assert (Hall : ports_within (ScanPortStart s) (ScanPortEnd s)
                   (scans staleAfter passes)).
  { unfold scans.
    assert (Hnew : ports_within (ScanPortStart s) (ScanPortEnd s)
                     (New staleAfter)).
    { intros key b Hb. simpl in Hb. by rewrite lookup_empty in Hb. }
    revert Hnew. generalize (New staleAfter).
    induction passes as [|pass passes IH]; intros r Hr; simpl; [done|].
    apply IH.
    - intros pass' p Hpass. apply Hrange. by right.
    - apply scan_ports; [|done]. intros p Hp. eapply Hrange; [left|done]. }
  intros key b Hb. pose proof (Hall _ _ Hb) as Hport.
  split; [lia|]. intros req override. unfold proxy.proxyTo.
  rewrite bool_decide_eq_false_2 by lia. discriminate.
Qed.
End scanning.

Lemma Base_idempotent s : Base (Base s) = Base s.
Proof.
  destruct s as [|c s]; [done|]. unfold Base at 2 3.
  set (stripped := drop_while is_separator (rev (c :: s))).
  destruct (take_drop_while (λ c, negb (is_separator c)) stripped)
    as [_ Hall].
  destruct (rev (take_while (λ c, negb (is_separator c)) stripped))
    as [|e elem] eqn:Helem; [done|].
  apply Base_id; [done|]. rewrite <- Helem.
  apply Forall_forall. intros d Hd.
  apply list_elem_of_In, in_rev, list_elem_of_In in Hd.
  eapply Forall_forall in Hall; [|exact Hd]. simpl in Hall.
  by destruct (is_separator d).
Qed.

Lemma fallback_Base port :
  Base (bytes ("/unknown/port-" +:+ FormatInt port))
  = bytes ("port-" +:+ FormatInt port).
Proof.
  rewrite !bytes_app.
  change (bytes "/unknown/port-")
    with (bytes "/unknown" ++ "/"%char :: bytes "port-").
  rewrite <- app_assoc. simpl app at 2.
  apply Base_last_element; [done|].
  apply Forall_app. split; [by repeat constructor|].
  eapply Forall_impl; [apply FormatInt_chars|]. intros c Hc.
  by apply slug_char_facts in Hc as (_ & _ & ?).
Qed.

Section scanning_more.
Context `{UnicodeTables}.

Lemma Slugify_Base (path : string) :
  Slugify (str (Base (bytes path))) = Slugify path.
Proof.
  unfold Slugify, Slugify_bytes.
  by rewrite String.list_ascii_of_string_of_list_ascii, Base_idempotent.
Qed.

Theorem probePort_name_matches_slug p r health :
  scanner.getHealth (scanner.probe_health p) = Some health →
  scanner.Healthy health = true →
  ∃ b, LookupByPort (scanner.probePort p r) (scanner.probe_port p)
       = Returns (Some b)
       ∧ Slugify (ProjectName b) = Slugify (ProjectPath b).
Proof.
  intros Hh Hok. unfold scanner.probePort. rewrite Hh, Hok. simpl.
  destruct (scanner.getProject (scanner.probe_project p)) as [project|].
  - match goal with
    | |- context [Upsert ?now ?port ?name ?path ?version r] =>
        destruct (Upsert_indexed now port name path version r)
          as (key & slug & Hport & Hback)
    end.
    eexists. unfold LookupByPort. rewrite Hport, Hback.
    split; [done|]. simpl. apply Slugify_Base.
  - match goal with
    | |- context [Upsert ?now ?port ?name ?path ?version r] =>
        destruct (Upsert_indexed now port name path version r)
          as (key & slug & Hport & Hback)
    end.
    eexists. unfold LookupByPort. rewrite Hport, Hback.
    split; [done|]. simpl.
    rewrite <- (Slugify_Base ("/unknown/port-" +:+ _)), fallback_Base.
    by rewrite String.string_of_list_ascii_of_string.
Qed.

Theorem scan_silent_pass probes now r :
  (∀ p, p ∈ probes →
     match scanner.getHealth (scanner.probe_health p) with
     | None => True
     | Some health => scanner.Healthy health = false
     end) →
  scanner.scan probes now r = Prune now r.
Proof.
  intros Hsilent. unfold scanner.scan. f_equal.
  induction probes as [|p probes IH]; simpl; [done|].
  assert (scanner.probePort p r = r) as ->.
  { unfold scanner.probePort. pose proof (Hsilent p) as Hp.
    destruct (scanner.getHealth (scanner.probe_health p)) as [health|];
      [|done].
    rewrite Hp; [done|left]. }
  apply IH. intros q Hq. apply Hsilent. by right.
Qed.
End scanning_more.

(** ** Launcher *)

Lemma nextFree_enough sys portEnd fuel nextPort :
  (launcher.loop_bound portEnd nextPort ≤ fuel)%nat →
  launcher.nextFree sys portEnd fuel nextPort ≠ None.
Proof.
  revert nextPort. unfold launcher.loop_bound.
  induction fuel as [|fuel IH]; intros nextPort Hfuel; simpl.
  - lia.
  - destruct (launcher.portInUse sys nextPort); [|done].
    case_bool_decide; [done|]. apply IH. lia.
Qed.

Lemma nextFree_port sys portEnd fuel nextPort p :
  launcher.nextFree sys portEnd fuel nextPort = Some (Some p) →
  nextPort ≤ p ∧ launcher.portInUse sys p = false.
Proof.
  revert nextPort. induction fuel as [|fuel IH]; intros nextPort; simpl.
  - destruct (launcher.portInUse sys nextPort) eqn:Hu; [done|].
    intros [= <-]. split; [lia|done].
  - destruct (launcher.portInUse sys nextPort) eqn:Hu.
    + case_bool_decide; [done|]. intros Hn. apply IH in Hn. split; [lia|tauto].
    + intros [= <-]. split; [lia|done].
Qed.

Lemma nextFree_error sys portEnd fuel nextPort :
  launcher.nextFree sys portEnd fuel nextPort = Some None →
  ∃ p, nextPort ≤ p ∧ launcher.portInUse sys p = true.
Proof.
  revert nextPort. induction fuel as [|fuel IH]; intros nextPort; simpl.
  - by destruct (launcher.portInUse sys nextPort).
  - destruct (launcher.portInUse sys nextPort) eqn:Hu; [|done].
    intros _. exists nextPort. split; [lia|done].
Qed.

Lemma increasing_snoc ports p :
  increasing ports → Forall (λ q, q < p) ports → increasing (ports ++ [p]).
Proof.
  induction ports as [|q ports IH]; simpl; [done|].
  intros [Hq Hinc] Hall. inversion Hall; subst. split.
  - apply Forall_app. split; [done|]. by constructor.
  - by apply IH.
Qed.

Lemma Launch_from_launched sys portStart portEnd all nextPort procs paths :
  portStart ≤ nextPort →
  (∀ dir, dir ∈ paths → dir ∈ all) →
  launched sys portStart all nextPort procs →
  ∃ nextPort',
    launched sys portStart all nextPort'
      (launcher.Launch_from sys portStart portEnd nextPort procs paths).1
    ∧ ((launcher.Launch_from sys portStart portEnd nextPort procs paths).2
       ≠ None →
       ∃ p, portStart ≤ p ∧ launcher.portInUse sys p = true)
    ∧ (length (launcher.Launch_from sys portStart portEnd nextPort procs
                 paths).1
       ≤ length procs + length paths)%nat.
Proof.
  revert nextPort procs.
  induction paths as [|dir rest IH]; intros nextPort procs Hstart Hsub Hinv;
    cbn [launcher.Launch_from].
  - exists nextPort. split; [done|]. split; [done|]. simpl. lia.
  - assert (Hrest : ∀ d, d ∈ rest → d ∈ all).
    { intros d Hd. apply Hsub. by right. }
    destruct (launcher.directory sys dir) as [abs|] eqn:Hdir.
    2:{ destruct (IH nextPort procs Hstart Hrest Hinv) as (n & H1 & H2 & H3).
        exists n. split; [done|]. split; [done|]. simpl. lia. }
    destruct (launcher.nextFree sys portEnd
                (launcher.loop_bound portEnd nextPort) nextPort)
      as [[p|]|] eqn:Hfree.
    + apply nextFree_port in Hfree as [Hle Hunused].
      assert (Hinv' : launched sys portStart all p procs).
      { destruct Hinv as [Hall Hinc]. split; [|done].
        eapply Forall_impl; [exact Hall|]. simpl.
        intros mp (? & ? & ? & ?). repeat split; try done; lia. }
      destruct (launcher.start sys abs p) eqn:Hrun.
      * destruct (IH (p + 1) (procs ++ [{| launcher.path := abs;
                                           launcher.port := p |}]))
          as (n & H1 & H2 & H3); [lia|exact Hrest| |].
        { destruct Hinv' as [Hall Hinc]. split.
          - apply Forall_app. split.
            + eapply Forall_impl; [exact Hall|]. simpl.
              intros mp (? & ? & ? & ?). repeat split; try done; lia.
            + constructor; [|done]. simpl.
              repeat split; try done; try lia.
              exists dir. split; [apply Hsub; left|done].
          - rewrite fmap_app. simpl. apply increasing_snoc; [done|].
            apply Forall_fmap. eapply Forall_impl; [exact Hall|]. simpl.
            intros mp (? & ? & ? & ?). lia. }
        exists n. split; [done|]. split; [done|].
        rewrite length_app in H3. simpl in H3 |- *. lia.
      * destruct (IH p procs) as (n & H1 & H2 & H3);
          [lia|exact Hrest|exact Hinv'|].
        exists n. split; [done|]. split; [done|]. simpl. lia.
    + simpl. exists nextPort. split; [done|]. split; [|lia].
      intros _. apply nextFree_error in Hfree as (p & Hp & Hu).
      exists p. split; [lia|done].
    + by destruct (nextFree_enough sys portEnd
                     (launcher.loop_bound portEnd nextPort) nextPort).
Qed.

Theorem Launch_ports sys portStart portEnd paths :
  Forall (λ mp, launcher.portInUse sys (launcher.port mp) = false
                ∧ portStart ≤ launcher.port mp
                ∧ launcher.start sys (launcher.path mp) (launcher.port mp)
                  = true
                ∧ ∃ dir, dir ∈ paths
                         ∧ launcher.directory sys dir
                           = Some (launcher.path mp))
    (launcher.Launch sys portStart portEnd paths).1
  ∧ increasing
      (launcher.port <$> (launcher.Launch sys portStart portEnd paths).1)
  ∧ (length (launcher.Launch sys portStart portEnd paths).1
     ≤ length paths)%nat
  ∧ ((launcher.Launch sys portStart portEnd paths).2 ≠ None →
     ∃ p, portStart ≤ p ∧ launcher.portInUse sys p = true).
Proof.
  unfold launcher.Launch.
  destruct (Launch_from_launched sys portStart portEnd paths portStart []
              paths) as (n & [Hall Hinc] & Herr & Hlen); [lia|done| |].
  { split; [constructor|done]. }
  split; [|split; [done|split; [by simpl in Hlen|done]]].
  eapply Forall_impl; [exact Hall|]. simpl.
  intros mp (? & ? & ? & ?). repeat split; try done; lia.
Qed.

Lemma Launch_from_free sys portStart portEnd nextPort procs paths :
  (∀ p, launcher.portInUse sys p = false) →
  (∀ dir, dir ∈ paths →
     ∃ abs, launcher.directory sys dir = Some abs
            ∧ ∀ p, launcher.start sys abs p = true) →
  ∃ abss,
    Forall2 (λ dir abs, launcher.directory sys dir = Some abs) paths abss
    ∧ launcher.Launch_from sys portStart portEnd nextPort procs paths
      = (procs ++ imap (λ i abs, {| launcher.path := abs;
                                   launcher.port := nextPort + Z.of_nat i |})
                      abss, None).
Proof.
  intros Hfree. revert nextPort procs.
  induction paths as [|dir rest IH]; intros nextPort procs Hdirs;
    cbn [launcher.Launch_from].
  - exists []. split; [constructor|]. simpl. by rewrite app_nil_r.
  - destruct (Hdirs dir) as (abs & Hdir & Hrun); [left|].
    rewrite Hdir.
    assert (launcher.nextFree sys portEnd
              (launcher.loop_bound portEnd nextPort) nextPort
            = Some (Some nextPort)) as ->.
    { unfold launcher.loop_bound. simpl. by rewrite Hfree. }
    rewrite Hrun.
    destruct (IH (nextPort + 1)
                (procs ++ [{| launcher.path := abs;
                              launcher.port := nextPort |}]))
      as (abss & Hall & ->).
    { intros d Hd. apply Hdirs. by right. }
    exists (abs :: abss). split; [by constructor|].
    rewrite <- app_assoc. simpl. f_equal. f_equal.
    rewrite Z.add_0_r. f_equal.
    apply imap_ext. intros i x _. simpl. f_equal. lia.
Qed.

Theorem Launch_ignores_portEnd sys portStart portEnd paths :
  (∀ p, launcher.portInUse sys p = false) →
  (∀ dir, dir ∈ paths →
     ∃ abs, launcher.directory sys dir = Some abs
            ∧ ∀ p, launcher.start sys abs p = true) →
  (launcher.Launch sys portStart portEnd paths).2 = None
  ∧ launcher.port <$> (launcher.Launch sys portStart portEnd paths).1
    = (λ i, portStart + Z.of_nat i) <$> seq 0 (length paths).
Proof.
  intros Hfree Hdirs. unfold launcher.Launch.
  destruct (Launch_from_free sys portStart portEnd portStart [] paths
              Hfree Hdirs) as (abss & Hall & ->).
  split; [done|]. simpl.
  apply Forall2_length in Hall. rewrite Hall. clear.
  generalize portStart. induction abss as [|abs abss IH]; intros start;
    [done|].
  simpl. f_equal.
  rewrite <- fmap_S_seq, <- list_fmap_compose.
  etrans; [|etrans; [apply (IH (start + 1))|]].
  - f_equal. apply imap_ext. intros i x _. simpl. f_equal. lia.
  - apply list_fmap_ext. intros i x _. simpl. lia.
Qed.
